(** * RecSys: the recommendation pipeline of projectRec.cpp

    A shallow embedding of namespace [RecSys] together with the properties
    of its scoring, blending and diversification functions.

    Conventions of the embedding.
    - A C++ [double] is a real number ([R]): rounding, infinities and NaN
      are outside the model, and statements about it are about exact
      arithmetic.  Module [Binary64] repeats the arithmetic of the
      scorers over the IEEE 754 binary64 numbers, to evaluate the code
      with its rounding on concrete inputs.
    - An [int] is an integer ([Z]); the two integer conversions the code
      performs ([static_cast<size_t>] and [static_cast<int>]) are written
      out with their wrap-around.
    - A [vector] is a [list]; a [pair<string,double>] is a pair.
    - An [unordered_map<string,double>] is an association list with
      pairwise distinct keys, kept in order of first insertion.
    - What the C++ standard leaves open (the iteration order of an
      [unordered_map], the relative order of equal elements after
      [std::sort], the permutation chosen by [std::shuffle]) is collected
      in the class [StdLibrary]; [reference_library] is one executable
      instance. *)

From Stdlib Require Import Reals Lra Lia ZArith List String Bool.
From Stdlib Require Import Permutation Sorted Ascii.
From Stdlib Require PrimFloat.
Import ListNotations.

Open Scope R_scope.

(** ** Data model *)

Record Tag := mkTag {
  tag_name : string;
  tag_value : R
}.

Record Work := mkWork {
  work_id : string;
  work_tags : list Tag;
  viewCount : R;
  interactionTime : R
}.

Record UserProfile := mkUserProfile {
  user_tags : list Tag
}.

Record SimilarUser := mkSimilarUser {
  peer_id : string;
  similarity : R;
  likedWorks : list string
}.

Record MetricsConfig := mkMetricsConfig {
  useMetrics : bool;
  weightViews : R;
  weightTime : R;
  weightTags : R
}.

(** [pair<string,double>]: an item id with its score. *)
Definition ScoredEntry : Type := string * R.

(** The comparator of the three [sort] calls is [a.second > b.second];
    a range sorted by it has no later element strictly above an earlier
    one. *)
Definition score_ge (a b : ScoredEntry) : Prop := snd b <= snd a.

Definition sorted_desc (l : list ScoredEntry) : Prop :=
  StronglySorted score_ge l.

(** The state of the [mt19937] generator, as the sequence of draws it is
    going to deliver. *)
Definition mt19937 : Type := list nat.

(** ** The standard library, as far as the standard fixes it *)

Class StdLibrary := {
  (** the order in which [begin()..end()] visits a map built by the given
      sequence of first insertions *)
  umap_iterate : list ScoredEntry -> list ScoredEntry;
  umap_iterate_perm : forall m, Permutation m (umap_iterate m);
  (** [std::sort] with the comparator [a.second > b.second] *)
  std_sort : list ScoredEntry -> list ScoredEntry;
  std_sort_perm : forall l, Permutation l (std_sort l);
  std_sort_sorted : forall l, sorted_desc (std_sort l);
  (** [std::shuffle], threading the generator *)
  std_shuffle : list ScoredEntry -> mt19937 -> list ScoredEntry * mt19937;
  std_shuffle_perm : forall l g, Permutation l (fst (std_shuffle l g))
}.

(** ** Integer conversions *)

Definition INT_MAX : Z := 2147483647.
Definition INT_MIN : Z := -2147483648.

Definition is_int (n : Z) : Prop := (INT_MIN <= n <= INT_MAX)%Z.

(** [static_cast<size_t>(n)] on a 64-bit target. *)
Definition to_size_t (n : Z) : Z := (n mod 2 ^ 64)%Z.

(** [static_cast<int>(n)] of a [size_t]: reduction modulo 2^32 into the
    signed range. *)
Definition to_int (n : Z) : Z := ((n + 2 ^ 31) mod 2 ^ 32 - 2 ^ 31)%Z.

(** [static_cast<int>(x)] of a [double]: truncation toward zero (the
    conversion is undefined when the result does not fit an [int]). *)
Definition trunc_to_int (x : R) : Z :=
  if Rle_dec 0 x then Int_part x else (- Int_part (- x))%Z.

(** ** unordered_map<string,double> *)

Definition umap : Type := list ScoredEntry.

Definition umap_empty : umap := [].

Fixpoint umap_find (m : umap) (k : string) : option R :=
  match m with
  | [] => None
  | (k', v) :: m' => if String.eqb k' k then Some v else umap_find m' k
  end.

(** [m[k] += d]: [operator[]] value-initialises a missing entry to 0. *)
Fixpoint umap_add (m : umap) (k : string) (d : R) : umap :=
  match m with
  | [] => [(k, 0 + d)]
  | (k', v) :: m' =>
      if String.eqb k' k then (k', v + d) :: m'
      else (k', v) :: umap_add m' k d
  end.

(** ** Similarity engine *)

(** The inner loop of [cosineSimilarity]: scan the user's tags and stop at
    the first one named like [tag]. *)
Fixpoint match_first (utags : list Tag) (tag : Tag) (dot : R) : R :=
  match utags with
  | [] => dot
  | utag :: rest =>
      if String.eqb (tag_name utag) (tag_name tag)
      then dot + tag_value utag * tag_value tag
      else match_first rest tag dot
  end.

Definition cosineSimilarity (user : UserProfile) (work : Work) : R :=
  let normUser :=
    fold_left (fun acc tag => acc + tag_value tag * tag_value tag)
              (user_tags user) 0 in
  let '(normWork, dot) :=
    fold_left (fun '(nw, d) tag =>
                 (nw + tag_value tag * tag_value tag,
                  match_first (user_tags user) tag d))
              (work_tags work) (0, 0) in
  let normUser := sqrt normUser in
  let normWork := sqrt normWork in
  if Req_dec_T normUser 0 then 0
  else if Req_dec_T normWork 0 then 0
  else dot / (normUser * normWork).

(** ** Content scorer *)

Definition computeWorkScore (user : UserProfile) (work : Work)
    (config : MetricsConfig) (maxViews maxTime : R) : R :=
  let score := weightTags config * cosineSimilarity user work in
  if useMetrics config then
    let normViews :=
      if Rgt_dec maxViews 0 then viewCount work / maxViews else 0 in
    let normTime :=
      if Rgt_dec maxTime 0 then interactionTime work / maxTime else 0 in
    score + (weightViews config * normViews + weightTime config * normTime)
  else score.

(** The first loop of [recommendContentBased]: running maxima, from 0. *)
Definition catalog_maxima (works : list Work) : R * R :=
  fold_left (fun '(maxViews, maxTime) work =>
               ((if Rgt_dec (viewCount work) maxViews
                 then viewCount work else maxViews),
                (if Rgt_dec (interactionTime work) maxTime
                 then interactionTime work else maxTime)))
            works (0, 0).

(** ** Bounded copy loops of the diversifier *)

(** [for (i = i0; cond i; i++) acc.push_back(v[i]);] -- [None] stands for
    a read outside [v] or for exhausted fuel. *)
Fixpoint index_loop (fuel : nat) (cond : Z -> bool) (v : list ScoredEntry)
    (i : Z) (acc : list ScoredEntry) : option (list ScoredEntry) :=
  match fuel with
  | O => None
  | S fuel' =>
      if cond i then
        match nth_error v (Z.to_nat i) with
        | Some x => index_loop fuel' cond v (i + 1)%Z (acc ++ [x])
        | None => None
        end
      else Some acc
  end.

Definition vsize (v : list ScoredEntry) : Z := Z.of_nat (List.length v).

Section Pipeline.

Context {std : StdLibrary}.

Definition recommendContentBased (user : UserProfile) (works : list Work)
    (config : MetricsConfig) : list ScoredEntry :=
  let '(maxViews, maxTime) := catalog_maxima works in
  let recs :=
    fold_left (fun recs work =>
                 recs ++ [(work_id work,
                           computeWorkScore user work config maxViews maxTime)])
              works [] in
  std_sort recs.

(** ** Collaborative scorer *)

Definition collaborative_scores (similarUsers : list SimilarUser) : umap :=
  fold_left (fun scoreMap user =>
               fold_left (fun scoreMap workId =>
                            umap_add scoreMap workId (similarity user))
                         (likedWorks user) scoreMap)
            similarUsers umap_empty.

Definition recommendCollaborative (similarUsers : list SimilarUser)
    : list ScoredEntry :=
  let scoreMap := collaborative_scores similarUsers in
  std_sort (umap_iterate scoreMap).

(** ** Blender *)

Definition combined_scores (contentRecs collabRecs : list ScoredEntry)
    (contentWeight collabWeight : R) : umap :=
  let combined :=
    fold_left (fun combined p =>
                 umap_add combined (fst p) (contentWeight * snd p))
              contentRecs umap_empty in
  fold_left (fun combined p =>
               umap_add combined (fst p) (collabWeight * snd p))
            collabRecs combined.

Definition combineRecommendations (contentRecs collabRecs : list ScoredEntry)
    (contentWeight collabWeight : R) : list ScoredEntry :=
  let combined :=
    combined_scores contentRecs collabRecs contentWeight collabWeight in
  std_sort (umap_iterate combined).

(** ** Diversifier *)

(** [g] is the generator as constructed by [mt19937 g(rd())]. *)
Definition getRandomizedRecommendations (recs : list ScoredEntry)
    (numRecommendations : Z) (randomFactor : R) (g : mt19937)
    : option (list ScoredEntry) :=
  if (numRecommendations <=? 0)%Z then Some [] else
  let numRandom := trunc_to_int (IZR numRecommendations * randomFactor) in
  let numTop := (numRecommendations - numRandom)%Z in
  match index_loop (S (List.length recs))
          (fun i => (i <? to_size_t numTop)%Z && (i <? vsize recs)%Z)
          recs 0%Z [] with
  | None => None
  | Some finalRecs =>
      match index_loop (S (List.length recs))
              (fun i => (i <? numTop)%Z && (i <? to_int (vsize recs))%Z)
              recs 0%Z [] with
      | None => None
      | Some remaining =>
          let '(remaining, g) := std_shuffle remaining g in
          match index_loop (S (List.length remaining))
                  (fun i => (i <? numRandom)%Z
                            && (i <? to_int (vsize remaining))%Z)
                  remaining 0%Z finalRecs with
          | None => None
          | Some finalRecs => Some (fst (std_shuffle finalRecs g))
          end
      end
  end.

End Pipeline.

(** ** A reference standard library

    An executable choice for everything [StdLibrary] leaves open: the map
    is visited most recent key first, the sort is the stable insertion
    sort, the shuffle picks the next element by the next draw of the
    generator. *)

Definition reverse_iterate (m : list ScoredEntry) : list ScoredEntry :=
  rev m.

Fixpoint insert_desc (x : ScoredEntry) (sorted : list ScoredEntry)
    : list ScoredEntry :=
  match sorted with
  | [] => [x]
  | y :: rest =>
      if Rgt_dec (snd x) (snd y) then x :: y :: rest
      else y :: insert_desc x rest
  end.

Definition insertion_sort (l : list ScoredEntry) : list ScoredEntry :=
  fold_left (fun sorted x => insert_desc x sorted) l [].

(** The next draw of the generator, reduced to [0 .. bound-1]. *)
Definition draw (g : mt19937) (bound : nat) : nat * mt19937 :=
  match g with
  | [] => (O, [])
  | d :: g' => (Nat.modulo d bound, g')
  end.

(** Remove the element at position [k]. *)
Fixpoint extract (k : nat) (l : list ScoredEntry) {struct l}
    : option (ScoredEntry * list ScoredEntry) :=
  match l with
  | [] => None
  | x :: rest =>
      match k with
      | O => Some (x, rest)
      | S k' =>
          match extract k' rest with
          | Some (y, rest') => Some (y, x :: rest')
          | None => None
          end
      end
  end.

Fixpoint selection_shuffle (n : nat) (l : list ScoredEntry) (g : mt19937)
    : list ScoredEntry * mt19937 :=
  match n with
  | O => (l, g)
  | S n' =>
      let '(k, g') := draw g (List.length l) in
      match extract k l with
      | Some (x, rest) =>
          let '(shuffled, g'') := selection_shuffle n' rest g' in
          (x :: shuffled, g'')
      | None => (l, g')
      end
  end.

Definition reference_shuffle (l : list ScoredEntry) (g : mt19937)
    : list ScoredEntry * mt19937 :=
  selection_shuffle (List.length l) l g.

(** ** The quantities the specification names *)

(** Sum of a list of reals. *)
Definition Rsum (l : list R) : R := fold_right Rplus 0 l.

(** Value of the first tag of [utags] named [name], 0 when there is none. *)
Definition first_user_value (utags : list Tag) (name : string) : R :=
  match find (fun utag => String.eqb (tag_name utag) name) utags with
  | Some utag => tag_value utag
  | None => 0
  end.

(** Dot product: over the item's tags, item value times matching user
    value. *)
Definition dot_product (user : UserProfile) (work : Work) : R :=
  Rsum (map (fun tag =>
               tag_value tag
               * first_user_value (user_tags user) (tag_name tag))
            (work_tags work)).

(** Euclidean norm of a tag list. *)
Definition euclidean_norm (tags : list Tag) : R :=
  sqrt (Rsum (map (fun tag => tag_value tag * tag_value tag) tags)).

(** Largest value of [f] over the catalog, 0 for the empty catalog
    (view counts and interaction times are nonnegative in the data
    model). *)
Definition max_over (f : Work -> R) (works : list Work) : R :=
  fold_right (fun work m => Rmax (f work) m) 0 works.

(** Quotient with the convention that it is 0 when the maximum is 0. *)
Definition normalized (x m : R) : R :=
  if Req_dec_T m 0 then 0 else x / m.

(** Content score of one item as the specification writes it. *)
Definition content_score (user : UserProfile) (works : list Work)
    (config : MetricsConfig) (work : Work) : R :=
  weightTags config * cosineSimilarity user work
  + (if useMetrics config
     then weightViews config
          * normalized (viewCount work) (max_over viewCount works)
          + weightTime config
            * normalized (interactionTime work)
                         (max_over interactionTime works)
     else 0).

(** Does the peer like [item]? *)
Definition likes (item : string) (peer : SimilarUser) : bool :=
  existsb (String.eqb item) (likedWorks peer).

(** Sum of [similarity] over the peers that like [item]. *)
Definition collaborative_total (peers : list SimilarUser) (item : string)
    : R :=
  Rsum (map similarity (filter (likes item) peers)).

(** Ids of a list of entries. *)
Definition ids (l : list ScoredEntry) : list string := map fst l.

(** Score of [item] in a list of entries, 0 when the item is missing. *)
Definition score_or_zero (l : list ScoredEntry) (item : string) : R :=
  match umap_find l item with
  | Some s => s
  | None => 0
  end.

(** ** Bookkeeping for the accumulation loops *)

(** A sequence of [m[k] += d] updates, one per entry of [l]. *)
Definition add_all (m : umap) (l : list ScoredEntry) : umap :=
  fold_left (fun m p => umap_add m (fst p) (snd p)) l m.

(** The entries of [l] with their scores multiplied by [w]. *)
Definition scaled (w : R) (l : list ScoredEntry) : list ScoredEntry :=
  map (fun p => (fst p, w * snd p)) l.

(** The updates of [recommendCollaborative], in the order the two nested
    loops perform them. *)
Definition liked_pairs (peers : list SimilarUser) : list ScoredEntry :=
  flat_map (fun user => map (fun workId => (workId, similarity user))
                            (likedWorks user))
           peers.

Definition has_key (k : string) (p : ScoredEntry) : bool :=
  String.eqb (fst p) k.

(** Is some update of [l] addressed to [k]? *)
Definition mentions (l : list ScoredEntry) (k : string) : bool :=
  existsb (has_key k) l.

(** Total of the updates of [l] addressed to [k]. *)
Definition contribution (l : list ScoredEntry) (k : string) : R :=
  Rsum (map snd (filter (has_key k) l)).

(** ** The recommendation steps of [main] *)

(** The four calls of [main] from the parsed input to [finalRecs]; the
    blend weights are the 0.5 and 0.5 that [main] passes. *)
Definition main_pipeline {std : StdLibrary} (userProfile : UserProfile)
    (works : list Work) (similarUsers : list SimilarUser)
    (metricsConfig : MetricsConfig) (numRecommendations : Z)
    (randomFactor : R) (g : mt19937) : option (list ScoredEntry) :=
  let contentRecs := recommendContentBased userProfile works metricsConfig in
  let collabRecs := recommendCollaborative similarUsers in
  let combinedRecs := combineRecommendations contentRecs collabRecs 0.5 0.5 in
  getRandomizedRecommendations combinedRecs numRecommendations randomFactor g.

(** ** trim and the section search of [main] *)

(** The character set [" \t\r\n"]. *)
Definition whitespace : string :=
  String " "%char (String "009"%char (String "013"%char
    (String "010"%char EmptyString))).

Fixpoint contains (chars : string) (c : ascii) : bool :=
  match chars with
  | EmptyString => false
  | String d rest => Ascii.eqb d c || contains rest c
  end.

(** [s.find_first_not_of(chars)]; [None] is [string::npos]. *)
Fixpoint find_first_not_of (s chars : string) : option nat :=
  match s with
  | EmptyString => None
  | String c rest =>
      if contains chars c then option_map S (find_first_not_of rest chars)
      else Some O
  end.

(** [s.find_last_not_of(chars)]; [None] is [string::npos]. *)
Fixpoint find_last_not_of (s chars : string) : option nat :=
  match s with
  | EmptyString => None
  | String c rest =>
      match find_last_not_of rest chars with
      | Some i => Some (S i)
      | None => if contains chars c then None else Some O
      end
  end.

(** [s.substr(pos, count)]: [None] is the [out_of_range] thrown when
    [pos] is beyond the end; [count] is clamped to what is left. *)
Definition substr (s : string) (pos count : nat) : option string :=
  if (String.length s <? pos)%nat then None
  else Some (substring pos count s).

(** [end - start + 1] in [size_t]; when [end] is [npos] the sum wraps to 0
    for [start = 0] and otherwise to a count beyond the end of [s]. *)
Definition trim_count (s : string) (start : nat) (last : option nat) : nat :=
  match last with
  | Some e => (e - start + 1)%nat
  | None => if Nat.eqb start O then O else String.length s
  end.

Definition trim (s : string) : option string :=
  match find_first_not_of s whitespace with
  | None => Some EmptyString
  | Some start =>
      substr s start (trim_count s start (find_last_not_of s whitespace))
  end.

(** [while (getline(cin, line)) if (trim(line) == header) break;] over the
    lines [getline] is going to deliver; the result is what is left of
    them. *)
Fixpoint seek_section (header : string) (lines : list string)
    : option (list string) :=
  match lines with
  | [] => Some []
  | line :: rest =>
      match trim line with
      | None => None
      | Some t =>
          if String.eqb t header then Some rest
          else seek_section header rest
      end
  end.

(** ** Further quantities used in the statements *)

(** Every character of [s] is one of [chars]. *)
Fixpoint all_in (chars s : string) : bool :=
  match s with
  | EmptyString => true
  | String c rest => contains chars c && all_in chars rest
  end.

Definition starts_clean (s : string) : bool :=
  match s with
  | EmptyString => false
  | String c _ => negb (contains whitespace c)
  end.

Fixpoint ends_clean (s : string) : bool :=
  match s with
  | EmptyString => false
  | String c EmptyString => negb (contains whitespace c)
  | String _ rest => ends_clean rest
  end.

(** Empty, or with a non-blank first and last character. *)
Definition trimmed (s : string) : Prop :=
  s = EmptyString \/ (starts_clean s = true /\ ends_clean s = true).



(** Equality of entries is decidable. *)
Definition entry_eq_dec (a b : ScoredEntry) : {a = b} + {a <> b}.
Proof. decide equality; [apply Req_dec_T | apply string_dec]. Defined.


(** ** The arithmetic of the scorers in binary64

    The same loops with [double] as the IEEE 754 binary64 numbers of the
    machine, to evaluate the code on concrete inputs with its rounding. *)

Module Binary64.

Import PrimFloat.

Record Tag := mkTag {
  tag_name : string;
  tag_value : float
}.

Record Work := mkWork {
  work_id : string;
  work_tags : list Tag;
  viewCount : float;
  interactionTime : float
}.

Record UserProfile := mkUserProfile {
  user_tags : list Tag
}.

Fixpoint match_first (utags : list Tag) (tag : Tag) (dot : float) : float :=
  match utags with
  | [] => dot
  | utag :: rest =>
      if String.eqb (tag_name utag) (tag_name tag)
      then (dot + tag_value utag * tag_value tag)%float
      else match_first rest tag dot
  end.

Definition cosineSimilarity (user : UserProfile) (work : Work) : float :=
  let normUser :=
    fold_left (fun acc tag => (acc + tag_value tag * tag_value tag)%float)
              (user_tags user) 0%float in
  let '(normWork, dot) :=
    fold_left (fun '(nw, d) tag =>
                 ((nw + tag_value tag * tag_value tag)%float,
                  match_first (user_tags user) tag d))
              (work_tags work) (0%float, 0%float) in
  let normUser := sqrt normUser in
  let normWork := sqrt normWork in
  if (normUser =? 0)%float || (normWork =? 0)%float then 0%float
  else (dot / (normUser * normWork))%float.

(** [m[k] += d] on an [unordered_map<string,double>]. *)
Fixpoint umap_add (m : list (string * float)) (k : string) (d : float)
    : list (string * float) :=
  match m with
  | [] => [(k, (0 + d)%float)]
  | (k', v) :: m' =>
      if String.eqb k' k then (k', (v + d)%float) :: m'
      else (k', v) :: umap_add m' k d
  end.

(** The map [combined] of [combineRecommendations] after its two loops. *)
Definition combined_scores (contentRecs collabRecs : list (string * float))
    (contentWeight collabWeight : float) : list (string * float) :=
  let combined :=
    fold_left (fun combined p =>
                 umap_add combined (fst p) (contentWeight * snd p)%float)
              contentRecs [] in
  fold_left (fun combined p =>
               umap_add combined (fst p) (collabWeight * snd p)%float)
            collabRecs combined.

End Binary64.

(** * Properties *)

(** ** The reference library meets the standard's contract *)

Module Reference.

Lemma insert_desc_perm x l : Permutation (x :: l) (insert_desc x l).
Proof.
  induction l as [|y l IH]; simpl; [reflexivity|].
  destruct (Rgt_dec (snd x) (snd y)); [reflexivity|].
  rewrite perm_swap. now apply perm_skip.
Qed.

Lemma insert_desc_sorted x l :
  sorted_desc l -> sorted_desc (insert_desc x l).
Proof.
  unfold sorted_desc.
  induction l as [|y l IH]; simpl; intros Hs.
  - repeat constructor.
  - inversion Hs as [|? ? Hl Hy]; subst.
    destruct (Rgt_dec (snd x) (snd y)) as [Hgt|Hle].
    + constructor; [exact Hs|].
      constructor; [unfold score_ge; lra|].
      rewrite Forall_forall in *. intros z Hz.
      specialize (Hy z Hz). unfold score_ge in *. lra.
    + constructor; [now apply IH|].
      rewrite Forall_forall in *. intros z Hz.
      apply (Permutation_in _ (Permutation_sym (insert_desc_perm x l))) in Hz.
      destruct Hz as [<-|Hz]; [unfold score_ge; lra | now apply Hy].
Qed.

Lemma insertion_sort_from acc l :
  sorted_desc acc ->
  let out := fold_left (fun sorted x => insert_desc x sorted) l acc in
  Permutation (l ++ acc) out /\ sorted_desc out.
Proof.
  revert acc. induction l as [|x l IH]; simpl; intros acc Hacc.
  - split; [reflexivity | exact Hacc].
  - destruct (IH (insert_desc x acc) (insert_desc_sorted x acc Hacc))
      as [Hp Hs].
    split; [|exact Hs].
    rewrite <- Hp, <- insert_desc_perm.
    now rewrite Permutation_middle.
Qed.

Lemma insertion_sort_perm l : Permutation l (insertion_sort l).
Proof.
  destruct (insertion_sort_from [] l) as [Hp _]; [constructor|].
  now rewrite app_nil_r in Hp.
Qed.

Lemma insertion_sort_sorted l : sorted_desc (insertion_sort l).
Proof.
  destruct (insertion_sort_from [] l) as [_ Hs]; [constructor | exact Hs].
Qed.

Lemma extract_perm k l x rest :
  extract k l = Some (x, rest) ->
  Permutation l (x :: rest) /\ List.length l = S (List.length rest).
Proof.
  revert k x rest. induction l as [|y l IH]; simpl; intros k x rest H.
  - discriminate.
  - destruct k as [|k].
    + inversion H; subst. split; reflexivity.
    + destruct (extract k l) as [[z r]|] eqn:E; [|discriminate].
      inversion H; subst. destruct (IH _ _ _ E) as [Hp Hl].
      split; [|simpl; now rewrite Hl].
      rewrite perm_swap. now apply perm_skip.
Qed.

Lemma selection_shuffle_perm n l g :
  List.length l = n -> Permutation l (fst (selection_shuffle n l g)).
Proof.
  revert l g. induction n as [|n IH]; simpl; intros l g Hl.
  - reflexivity.
  - destruct (draw g (List.length l)) as [k g'].
    destruct (extract k l) as [[x rest]|] eqn:E; [|reflexivity].
    destruct (extract_perm _ _ _ _ E) as [Hp Hlen].
    specialize (IH rest g' ltac:(lia)).
    destruct (selection_shuffle n rest g') as [shuffled g'']. simpl in *.
    rewrite Hp. now apply perm_skip.
Qed.

Lemma reference_shuffle_perm l g :
  Permutation l (fst (reference_shuffle l g)).
Proof. now apply selection_shuffle_perm. Qed.

End Reference.

#[export] Instance reference_library : StdLibrary := {|
  umap_iterate := reverse_iterate;
  umap_iterate_perm := @Permutation_rev ScoredEntry;
  std_sort := insertion_sort;
  std_sort_perm := Reference.insertion_sort_perm;
  std_sort_sorted := Reference.insertion_sort_sorted;
  std_shuffle := reference_shuffle;
  std_shuffle_perm := Reference.reference_shuffle_perm
|}.

(** ** unordered_map *)

Lemma Rsum_app l1 l2 : Rsum (l1 ++ l2) = Rsum l1 + Rsum l2.
Proof.
  unfold Rsum. induction l1 as [|x l1 IH]; simpl; [lra | rewrite IH; lra].
Qed.

Lemma umap_find_add_same m k d :
  umap_find (umap_add m k d) k = Some (score_or_zero m k + d).
Proof.
  unfold score_or_zero.
  induction m as [|[k' v] m IH]; simpl.
  - now rewrite String.eqb_refl.
  - destruct (String.eqb k' k) eqn:E; simpl; rewrite E; [reflexivity | exact IH].
Qed.

Lemma umap_find_add_other m k d k' :
  k <> k' -> umap_find (umap_add m k d) k' = umap_find m k'.
Proof.
  intros Hne. induction m as [|[k0 v] m IH]; simpl.
  - destruct (String.eqb_spec k k'); [contradiction | reflexivity].
  - destruct (String.eqb_spec k0 k) as [->|Hk]; simpl.
    + destruct (String.eqb_spec k k'); [contradiction | reflexivity].
    + now rewrite IH.
Qed.

Lemma umap_find_None m k : umap_find m k = None <-> ~ In k (ids m).
Proof.
  induction m as [|[k' v] m IH]; simpl.
  - tauto.
  - destruct (String.eqb_spec k' k) as [->|Hk].
    + split; [discriminate | intros H; exfalso; apply H; now left].
    + rewrite IH. split; [intros H [?|?]; tauto | tauto].
Qed.

Lemma umap_find_In m k v :
  NoDup (ids m) -> (In (k, v) m <-> umap_find m k = Some v).
Proof.
  induction m as [|[k' v'] m IH]; simpl; intros Hnd.
  - split; [tauto | discriminate].
  - inversion Hnd as [|? ? Hnotin Hnd']; subst.
    destruct (String.eqb_spec k' k) as [->|Hk].
    + split.
      * intros [H|H]; [now inversion H|].
        exfalso. apply Hnotin. now apply (in_map fst) in H.
      * intros H; inversion H; now left.
    + rewrite <- (IH Hnd'). split; [|tauto].
      intros [H|H]; [inversion H; contradiction | exact H].
Qed.

Lemma ids_umap_add m k d :
  ids (umap_add m k d) = if mentions m k then ids m else ids m ++ [k].
Proof.
  unfold mentions, has_key.
  induction m as [|[k' v] m IH]; simpl; [reflexivity|].
  destruct (String.eqb k' k); simpl; [reflexivity|].
  rewrite IH. now destruct (existsb _ m).
Qed.

Lemma mentions_In l k : mentions l k = true <-> In k (ids l).
Proof.
  unfold mentions, has_key, ids. rewrite existsb_exists, in_map_iff.
  split; intros [p [H1 H2]]; exists p.
  - apply String.eqb_eq in H2. tauto.
  - split; [tauto|]. apply String.eqb_eq. tauto.
Qed.

Lemma NoDup_umap_add m k d : NoDup (ids m) -> NoDup (ids (umap_add m k d)).
Proof.
  intros Hnd. rewrite ids_umap_add.
  destruct (mentions m k) eqn:E; [exact Hnd|].
  apply NoDup_app; [exact Hnd | repeat constructor; simpl; tauto |].
  intros x Hx [<-|[]]. apply mentions_In in Hx. congruence.
Qed.

Lemma NoDup_add_all l m : NoDup (ids m) -> NoDup (ids (add_all m l)).
Proof.
  unfold add_all. revert m.
  induction l as [|p l IH]; simpl; intros m Hnd; [exact Hnd|].
  apply IH. now apply NoDup_umap_add.
Qed.

Lemma mentions_cons k' d l k :
  mentions ((k', d) :: l) k = (String.eqb k' k || mentions l k)%bool.
Proof. reflexivity. Qed.

Lemma contribution_cons k' d l k :
  contribution ((k', d) :: l) k =
  if String.eqb k' k then d + contribution l k else contribution l k.
Proof.
  unfold contribution, has_key. simpl. now destruct (String.eqb k' k).
Qed.

Lemma contribution_absent l k : ~ In k (ids l) -> contribution l k = 0.
Proof.
  induction l as [|[k' d] l IH]; simpl; intros H; [reflexivity|].
  rewrite contribution_cons.
  destruct (String.eqb_spec k' k) as [->|Hk]; [tauto | apply IH; tauto].
Qed.

Lemma umap_find_add_all l m k :
  umap_find (add_all m l) k =
  if mentions l k then Some (score_or_zero m k + contribution l k)
  else umap_find m k.
Proof.
  revert m. induction l as [|[k' d] l IH]; intros m; [reflexivity|].
  change (add_all m ((k', d) :: l)) with (add_all (umap_add m k' d) l).
  rewrite IH, mentions_cons, contribution_cons.
  destruct (String.eqb_spec k' k) as [->|Hk]; simpl.
  - unfold score_or_zero at 1. rewrite umap_find_add_same.
    destruct (mentions l k) eqn:E; f_equal; [lra|].
    rewrite contribution_absent; [lra|].
    rewrite <- mentions_In. congruence.
  - unfold score_or_zero. now rewrite umap_find_add_other.
Qed.

Lemma add_all_app m l1 l2 : add_all m (l1 ++ l2) = add_all (add_all m l1) l2.
Proof. unfold add_all. apply fold_left_app. Qed.

Lemma contribution_scaled w l k :
  NoDup (ids l) -> contribution (scaled w l) k = w * score_or_zero l k.
Proof.
  unfold score_or_zero.
  induction l as [|[k' d] l IH]; simpl; intros Hnd.
  - unfold contribution; simpl; lra.
  - inversion Hnd as [|? ? Hnotin Hnd']; subst.
    rewrite contribution_cons.
    destruct (String.eqb_spec k' k) as [->|Hk]; [|now apply IH].
    rewrite contribution_absent; [lra|].
    unfold ids, scaled. rewrite map_map. exact Hnotin.
Qed.

Lemma ids_scaled w l : ids (scaled w l) = ids l.
Proof. unfold ids, scaled. rewrite map_map. reflexivity. Qed.

Lemma umap_lookup_perm m1 m2 :
  NoDup (ids m1) -> NoDup (ids m2) ->
  (forall k, umap_find m1 k = umap_find m2 k) -> Permutation m1 m2.
Proof.
  intros H1 H2 Heq.
  apply NoDup_Permutation.
  - eapply NoDup_map_inv; exact H1.
  - eapply NoDup_map_inv; exact H2.
  - intros [k v]. rewrite (umap_find_In m1 k v H1), (umap_find_In m2 k v H2).
    now rewrite Heq.
Qed.

Lemma score_or_zero_absent l k : mentions l k = false -> score_or_zero l k = 0.
Proof.
  intros H. unfold score_or_zero.
  destruct (umap_find l k) eqn:E; [|reflexivity].
  assert (Hin : ~ In k (ids l)) by (rewrite <- mentions_In; congruence).
  apply umap_find_None in Hin. congruence.
Qed.

Lemma fold_left_scaled w l m :
  fold_left (fun combined p => umap_add combined (fst p) (w * snd p)) l m =
  add_all m (scaled w l).
Proof.
  unfold add_all, scaled. revert m.
  induction l as [|p l IH]; simpl; intros m; [reflexivity | apply IH].
Qed.

Lemma combined_scores_add_all content collab cw lw :
  combined_scores content collab cw lw =
  add_all (add_all umap_empty (scaled cw content)) (scaled lw collab).
Proof. unfold combined_scores. now rewrite !fold_left_scaled. Qed.

Lemma mentions_scaled w l k : mentions (scaled w l) k = mentions l k.
Proof.
  unfold mentions, scaled, has_key. induction l as [|p l IH]; simpl;
    [reflexivity | now rewrite IH].
Qed.

(** The blended map in closed form, for arbitrary input lists. *)
Lemma combined_scores_find content collab cw lw k :
  umap_find (combined_scores content collab cw lw) k =
  if (mentions content k || mentions collab k)%bool
  then Some (contribution (scaled cw content) k
             + contribution (scaled lw collab) k)
  else None.
Proof.
  rewrite combined_scores_add_all, umap_find_add_all.
  unfold score_or_zero. rewrite umap_find_add_all. simpl.
  rewrite !mentions_scaled.
  assert (Habs : forall w l, mentions l k = false ->
                             contribution (scaled w l) k = 0).
  { intros w l H. apply contribution_absent.
    rewrite <- mentions_In, mentions_scaled. congruence. }
  change (score_or_zero umap_empty k) with 0.
  destruct (mentions content k) eqn:E1, (mentions collab k) eqn:E2; simpl;
    try reflexivity; f_equal;
    rewrite ?(Habs lw collab E2), ?(Habs cw content E1); lra.
Qed.

Lemma combined_scores_NoDup content collab cw lw :
  NoDup (ids (combined_scores content collab cw lw)).
Proof.
  rewrite combined_scores_add_all. apply NoDup_add_all, NoDup_add_all.
  constructor.
Qed.

Lemma inner_loop_add_all s liked m :
  fold_left (fun scoreMap workId => umap_add scoreMap workId s) liked m =
  add_all m (map (fun workId => (workId, s)) liked).
Proof.
  unfold add_all. revert m.
  induction liked as [|w liked IH]; simpl; intros m; [reflexivity | apply IH].
Qed.

Lemma collaborative_scores_from peers m :
  fold_left (fun scoreMap user =>
               fold_left (fun scoreMap workId =>
                            umap_add scoreMap workId (similarity user))
                         (likedWorks user) scoreMap)
            peers m =
  add_all m (liked_pairs peers).
Proof.
  revert m. induction peers as [|p peers IH]; simpl; intros m; [reflexivity|].
  now rewrite IH, inner_loop_add_all, add_all_app.
Qed.

Lemma collaborative_scores_add_all peers :
  collaborative_scores peers = add_all umap_empty (liked_pairs peers).
Proof. apply collaborative_scores_from. Qed.

Lemma contribution_app l1 l2 k :
  contribution (l1 ++ l2) k = contribution l1 k + contribution l2 k.
Proof.
  unfold contribution. now rewrite filter_app, map_app, Rsum_app.
Qed.

Lemma contribution_liked s liked k :
  NoDup liked ->
  contribution (map (fun workId => (workId, s)) liked) k =
  if existsb (String.eqb k) liked then s else 0.
Proof.
  induction liked as [|w liked IH]; simpl; intros Hnd; [reflexivity|].
  inversion Hnd as [|? ? Hnotin Hnd']; subst.
  rewrite contribution_cons, (String.eqb_sym k w).
  destruct (String.eqb_spec w k) as [->|Hk]; simpl; [|now apply IH].
  rewrite contribution_absent; [lra|].
  unfold ids. rewrite map_map. simpl. now rewrite map_id.
Qed.

Lemma contribution_liked_pairs peers k :
  Forall (fun peer => NoDup (likedWorks peer)) peers ->
  contribution (liked_pairs peers) k = collaborative_total peers k.
Proof.
  unfold collaborative_total.
  induction 1 as [|p peers Hp _ IH]; simpl; [reflexivity|].
  rewrite contribution_app, IH, (contribution_liked _ _ _ Hp).
  unfold likes at 2. destruct (existsb _ (likedWorks p)); simpl.
  - reflexivity.
  - unfold Rsum. lra.
Qed.

Lemma mentions_liked_pairs peers k :
  mentions (liked_pairs peers) k = true <->
  exists peer, In peer peers /\ In k (likedWorks peer).
Proof.
  rewrite mentions_In. unfold ids, liked_pairs.
  rewrite in_map_iff. split.
  - intros [[k' s] [Hk Hin]]. simpl in Hk. subst k'.
    apply in_flat_map in Hin. destruct Hin as [peer [Hp Hin]].
    exists peer. split; [exact Hp|].
    apply in_map_iff in Hin. destruct Hin as [w [Hw Hin]].
    now inversion Hw; subst.
  - intros [peer [Hp Hin]]. exists (k, similarity peer). split; [reflexivity|].
    apply in_flat_map. exists peer. split; [exact Hp|].
    apply in_map_iff. now exists k.
Qed.

(** Two descending lists of reals with the same elements are equal. *)
Lemma sorted_scores_unique (l1 l2 : list R) :
  StronglySorted Rge l1 -> StronglySorted Rge l2 ->
  Permutation l1 l2 -> l1 = l2.
Proof.
  revert l2. induction l1 as [|a l1 IH]; intros l2 H1 H2 Hp.
  - now apply Permutation_nil in Hp.
  - destruct l2 as [|b l2];
      [apply Permutation_sym, Permutation_nil in Hp; discriminate|].
    inversion H1 as [|? ? Hs1 Ha]; inversion H2 as [|? ? Hs2 Hb]; subst.
    rewrite Forall_forall in Ha, Hb.
    assert (Hab : a = b).
    { assert (Ia : In a (b :: l2))
        by (apply (Permutation_in _ Hp); now left).
      assert (Ib : In b (a :: l1))
        by (apply (Permutation_in _ (Permutation_sym Hp)); now left).
      destruct Ia as [->|Ia]; [reflexivity|].
      destruct Ib as [->|Ib]; [reflexivity|].
      specialize (Ha _ Ib). specialize (Hb _ Ia). lra. }
    subst b. f_equal. apply IH; try assumption.
    now apply Permutation_cons_inv in Hp.
Qed.

Lemma sorted_desc_scores l :
  sorted_desc l -> StronglySorted Rge (map snd l).
Proof.
  unfold sorted_desc. induction 1 as [|a l Hs IH Ha]; simpl; constructor.
  - exact IH.
  - rewrite Forall_forall in *. intros s Hs'.
    apply in_map_iff in Hs'. destruct Hs' as [b [<- Hb]].
    specialize (Ha b Hb). unfold score_ge in Ha. lra.
Qed.

(** A sorted arrangement of two entries with different scores. *)
Lemma sorted_pair (a b : ScoredEntry) l :
  snd b < snd a -> Permutation [a; b] l -> sorted_desc l -> l = [a; b].
Proof.
  intros Hlt Hp Hs.
  destruct (Permutation_length_2_inv Hp) as [E|E]; [exact E|].
  exfalso. rewrite E in Hs. unfold sorted_desc in Hs.
  inversion Hs as [|? ? _ Hall]. inversion Hall as [|? ? Hle _].
  unfold score_ge in Hle. lra.
Qed.

Section PipelineFacts.

Context {std : StdLibrary}.

Lemma sorted_view_perm (m : umap) : Permutation m (std_sort (umap_iterate m)).
Proof.
  etransitivity; [apply umap_iterate_perm | apply std_sort_perm].
Qed.

Lemma sorted_view_In (m : umap) k s :
  NoDup (ids m) ->
  (In (k, s) (std_sort (umap_iterate m)) <-> umap_find m k = Some s).
Proof.
  intros Hnd. rewrite <- (umap_find_In m k s Hnd).
  split; apply Permutation_in;
    [apply Permutation_sym|]; apply sorted_view_perm.
Qed.

Lemma sorted_view_ids (m : umap) :
  Permutation (ids m) (ids (std_sort (umap_iterate m))).
Proof. apply Permutation_map, sorted_view_perm. Qed.

Lemma content_recs_map user works config maxViews maxTime acc :
  fold_left (fun recs work =>
               recs ++ [(work_id work,
                         computeWorkScore user work config maxViews maxTime)])
            works acc =
  acc ++ map (fun work =>
                (work_id work,
                 computeWorkScore user work config maxViews maxTime)) works.
Proof.
  revert acc. induction works as [|w works IH]; simpl; intros acc.
  - now rewrite app_nil_r.
  - now rewrite IH, <- app_assoc.
Qed.

End PipelineFacts.

(** ** Blender *)

Section BlenderFacts.

Context {std : StdLibrary}.

Lemma combineRecommendations_In content collab cw lw k s :
  In (k, s) (combineRecommendations content collab cw lw) <->
  (In k (ids content) \/ In k (ids collab)) /\
  s = contribution (scaled cw content) k + contribution (scaled lw collab) k.
Proof.
  unfold combineRecommendations.
  rewrite sorted_view_In by apply combined_scores_NoDup.
  rewrite combined_scores_find, <- !mentions_In.
  destruct (mentions content k), (mentions collab k); simpl; split; intros H.
  all: try discriminate H.
  all: try (inversion H; subst; split; [tauto | reflexivity]).
  all: try (destruct H as [_ ->]; reflexivity).
  all: destruct H as [[H|H] _]; discriminate H.
Qed.

Lemma combineRecommendations_NoDup content collab cw lw :
  NoDup (ids (combineRecommendations content collab cw lw)).
Proof.
  unfold combineRecommendations.
  eapply Permutation_NoDup;
    [apply sorted_view_ids | apply combined_scores_NoDup].
Qed.

Lemma combineRecommendations_sorted content collab cw lw :
  sorted_desc (combineRecommendations content collab cw lw).
Proof. apply std_sort_sorted. Qed.

Lemma combineRecommendations_swap_perm A B w :
  Permutation (combineRecommendations A B w w)
              (combineRecommendations B A w w).
Proof.
  unfold combineRecommendations.
  rewrite <- !sorted_view_perm.
  apply umap_lookup_perm; try apply combined_scores_NoDup.
  intros k. rewrite !combined_scores_find, orb_comm.
  destruct (mentions B k || mentions A k)%bool; [f_equal; lra | reflexivity].
Qed.

End BlenderFacts.

(** C6. For input lists with at most one entry per item id, the blended
    list holds an entry for an id exactly when the id occurs in one of the
    inputs, holds it once, and scores it
    contentWeight * contentScore + collabWeight * collabScore with a
    missing side counted as 0; in particular an id present on one side
    only is scored by that side's weight times its score there. *)
Theorem combineRecommendations_merges {std : StdLibrary}
    (content collab : list ScoredEntry) (cw lw : R) :
  NoDup (ids content) -> NoDup (ids collab) ->
  let out := combineRecommendations content collab cw lw in
  (forall k s,
      In (k, s) out <->
      (In k (ids content) \/ In k (ids collab)) /\
      s = cw * score_or_zero content k + lw * score_or_zero collab k) /\
  NoDup (ids out) /\
  (forall k, ~ In k (ids content) -> ~ In k (ids collab) -> ~ In k (ids out)) /\
  (forall k c, In (k, c) content -> ~ In k (ids collab) ->
               In (k, cw * c) out) /\
  (forall k c, In (k, c) collab -> ~ In k (ids content) ->
               In (k, lw * c) out).
Proof.
  intros Hc Hl out.
  assert (Hin : forall k s,
      In (k, s) out <->
      (In k (ids content) \/ In k (ids collab)) /\
      s = cw * score_or_zero content k + lw * score_or_zero collab k).
  { intros k s. unfold out. rewrite combineRecommendations_In.
    now rewrite !contribution_scaled. }
  assert (Hzero : forall l k, ~ In k (ids l) -> score_or_zero l k = 0).
  { intros l k H. apply score_or_zero_absent.
    destruct (mentions l k) eqn:E; [|reflexivity].
    apply mentions_In in E. contradiction. }
  assert (Hscore : forall l k c, NoDup (ids l) -> In (k, c) l ->
                                 score_or_zero l k = c).
  { intros l k c Hnd H. unfold score_or_zero.
    apply (umap_find_In l k c Hnd) in H. now rewrite H. }
  split; [exact Hin|]. split; [apply combineRecommendations_NoDup|].
  split; [|split].
  - intros k H1 H2 H. unfold ids in H. apply in_map_iff in H.
    destruct H as [[k' s] [Hk H]]. simpl in Hk. subst k'.
    apply Hin in H. tauto.
  - intros k c H Hno. apply Hin. split.
    + left. now apply (in_map fst) in H.
    + rewrite (Hscore _ _ _ Hc H), (Hzero _ _ Hno). lra.
  - intros k c H Hno. apply Hin. split.
    + right. now apply (in_map fst) in H.
    + rewrite (Hscore _ _ _ Hl H), (Hzero _ _ Hno). lra.
Qed.

Lemma combineRecommendations_merges_witness :
  In ("A"%string, 1 * 3)
     (combineRecommendations (std := reference_library)
        [("A"%string, 3)] [("B"%string, 2)] 1 1).
Proof.
  destruct (combineRecommendations_merges (std := reference_library)
              [("A"%string, 3)] [("B"%string, 2)] 1 1)
    as (_ & _ & _ & H & _).
  - repeat constructor; simpl; tauto.
  - repeat constructor; simpl; tauto.
  - apply H; simpl; [now left|]. intros [E|[]]. discriminate E.
Defined.

(** C9, as stated, fails: with the reference library the two argument
    orders return the two tied entries in opposite orders. *)
Lemma combineRecommendations_swap_counterexample :
  combineRecommendations (std := reference_library)
    [("x"%string, 1)] [("y"%string, 1)] 1 1
  <> combineRecommendations (std := reference_library)
       [("y"%string, 1)] [("x"%string, 1)] 1 1.
Proof.
  unfold combineRecommendations, combined_scores. simpl.
  unfold reverse_iterate, insertion_sort. simpl.
  destruct (Rgt_dec (0 + 1 * 1) (0 + 1 * 1)) as [Hgt|_]; [lra|].
  intros H. inversion H.
Qed.

(** C9, amended. For input lists with at most one entry per item id and
    equal weights, swapping the two input lists leaves the blended list
    unchanged up to the order of entries with equal scores: both results
    hold the same entries, both are sorted non-increasing, and they carry
    the same score at every position. *)
Theorem combineRecommendations_swap {std : StdLibrary}
    (A B : list ScoredEntry) (w : R) :
  NoDup (ids A) -> NoDup (ids B) ->
  let ab := combineRecommendations A B w w in
  let ba := combineRecommendations B A w w in
  Permutation ab ba /\ sorted_desc ab /\ sorted_desc ba /\
  map snd ab = map snd ba.
Proof.
  intros _ _ ab ba.
  assert (Hp : Permutation ab ba) by apply combineRecommendations_swap_perm.
  assert (Hab : sorted_desc ab) by apply combineRecommendations_sorted.
  assert (Hba : sorted_desc ba) by apply combineRecommendations_sorted.
  repeat split; try assumption.
  apply sorted_scores_unique; try now apply sorted_desc_scores.
  now apply Permutation_map.
Qed.

Lemma combineRecommendations_swap_witness :
  map snd (combineRecommendations (std := reference_library)
             [("x"%string, 2); ("y"%string, 1)] [("y"%string, 3)]
             (1 / 2) (1 / 2))
  = map snd (combineRecommendations (std := reference_library)
               [("y"%string, 3)] [("x"%string, 2); ("y"%string, 1)]
               (1 / 2) (1 / 2)).
Proof.
  destruct (combineRecommendations_swap (std := reference_library)
              [("x"%string, 2); ("y"%string, 1)] [("y"%string, 3)] (1 / 2))
    as (_ & _ & _ & H).
  - repeat constructor; simpl; try tauto.
    intros [E|[]]. discriminate E.
  - repeat constructor; simpl; tauto.
  - exact H.
Defined.

(** ** Collaborative scorer *)

Section CollaborativeFacts.

Context {std : StdLibrary}.

Lemma recommendCollaborative_In peers k s :
  In (k, s) (recommendCollaborative peers) <->
  (exists peer, In peer peers /\ In k (likedWorks peer)) /\
  s = contribution (liked_pairs peers) k.
Proof.
  unfold recommendCollaborative. rewrite collaborative_scores_add_all.
  rewrite sorted_view_In by (apply NoDup_add_all; constructor).
  rewrite umap_find_add_all, <- mentions_liked_pairs.
  change (score_or_zero umap_empty k) with 0. simpl.
  destruct (mentions (liked_pairs peers) k); split; intros H.
  - inversion H. split; [reflexivity | lra].
  - destruct H as [_ ->]. f_equal. lra.
  - discriminate H.
  - destruct H as [H _]. discriminate H.
Qed.

Lemma recommendCollaborative_NoDup peers :
  NoDup (ids (recommendCollaborative peers)).
Proof.
  unfold recommendCollaborative. rewrite collaborative_scores_add_all.
  eapply Permutation_NoDup; [apply sorted_view_ids|].
  apply NoDup_add_all. constructor.
Qed.

End CollaborativeFacts.

(** C5. When every peer's liked items form a set, the collaborative list
    holds exactly one entry per item liked by some peer, scored by the sum
    of the similarities of the peers that like it; an item liked by nobody
    has no entry.  On the peers u1 (0.8, liked X and Y) and u2 (0.3, liked
    Y) the result is Y with 1.1 followed by X with 0.8. *)
Theorem recommendCollaborative_accumulates {std : StdLibrary} :
  (forall peers : list SimilarUser,
      Forall (fun peer => NoDup (likedWorks peer)) peers ->
      let out := recommendCollaborative peers in
      (forall k s,
          In (k, s) out <->
          (exists peer, In peer peers /\ In k (likedWorks peer)) /\
          s = collaborative_total peers k) /\
      NoDup (ids out) /\
      (forall k, (forall peer, In peer peers -> ~ In k (likedWorks peer)) ->
                 ~ In k (ids out))) /\
  recommendCollaborative
    [mkSimilarUser "u1" 0.8 ["X"%string; "Y"%string];
     mkSimilarUser "u2" 0.3 ["Y"%string]]
  = [("Y"%string, 1.1); ("X"%string, 0.8)].
Proof.
  split.
  - intros peers Hsets out.
    assert (Hin : forall k s,
        In (k, s) out <->
        (exists peer, In peer peers /\ In k (likedWorks peer)) /\
        s = collaborative_total peers k).
    { intros k s. unfold out.
      now rewrite recommendCollaborative_In, contribution_liked_pairs. }
    split; [exact Hin|]. split; [apply recommendCollaborative_NoDup|].
    intros k Hnone H. unfold ids in H. apply in_map_iff in H.
    destruct H as [[k' s] [Hk H]]. simpl in Hk. subst k'.
    apply Hin in H. destruct H as [[peer [Hp Hk]] _].
    exact (Hnone peer Hp Hk).
  - unfold recommendCollaborative.
    set (m := collaborative_scores _).
    pose proof (sorted_view_perm m) as Hp.
    pose proof (std_sort_sorted (umap_iterate m)) as Hs.
    assert (Hm : Permutation [("Y"%string, 1.1); ("X"%string, 0.8)] m).
    { unfold m, collaborative_scores. simpl.
      replace (0 + 0.8 + 0.3) with 1.1 by lra.
      replace (0 + 0.8) with 0.8 by lra. apply perm_swap. }
    apply sorted_pair; [simpl; lra | | exact Hs].
    now rewrite Hm.
Qed.

Lemma recommendCollaborative_accumulates_witness :
  In ("X"%string, 0.8)
     (recommendCollaborative (std := reference_library)
        [mkSimilarUser "u1" 0.8 ["X"%string; "Y"%string];
         mkSimilarUser "u2" 0.3 ["Y"%string]]).
Proof.
  destruct (recommendCollaborative_accumulates (std := reference_library))
    as [H _].
  apply H.
  - repeat constructor; simpl; try tauto.
    intros [E|[]]. discriminate E.
  - split.
    + eexists. split; [left; reflexivity | simpl; now left].
    + unfold collaborative_total, Rsum. simpl. lra.
Defined.

(** ** Content scorer *)

Lemma max_over_nonneg f works : 0 <= max_over f works.
Proof.
  induction works as [|w works IH]; simpl; [lra|].
  eapply Rle_trans; [exact IH | apply Rmax_r].
Qed.

Lemma max_over_upper f works w : In w works -> f w <= max_over f works.
Proof.
  induction works as [|w' works IH]; simpl; [tauto|].
  intros [->|H]; [apply Rmax_l|].
  eapply Rle_trans; [now apply IH | apply Rmax_r].
Qed.

Lemma max_over_attained f works :
  max_over f works = 0 \/ exists w, In w works /\ f w = max_over f works.
Proof.
  induction works as [|w works IH]; simpl; [now left|].
  unfold Rmax. destruct (Rle_dec (f w) (max_over f works)).
  - destruct IH as [IH|[w' [Hin Hw]]]; [now left|].
    right. exists w'. tauto.
  - right. exists w. tauto.
Qed.

Lemma max_over_maximum f works :
  works <> [] -> Forall (fun w => 0 <= f w) works ->
  exists w, In w works /\ f w = max_over f works.
Proof.
  intros Hne Hpos.
  destruct (max_over_attained f works) as [H0|H]; [|exact H].
  destruct works as [|w works]; [contradiction|].
  exists w. split; [now left|].
  pose proof (max_over_upper f (w :: works) w (or_introl eq_refl)) as Hup.
  inversion Hpos; subst. lra.
Qed.

Lemma running_maxima works a b :
  0 <= a -> 0 <= b ->
  fold_left (fun '(maxViews, maxTime) work =>
               ((if Rgt_dec (viewCount work) maxViews
                 then viewCount work else maxViews),
                (if Rgt_dec (interactionTime work) maxTime
                 then interactionTime work else maxTime)))
            works (a, b) =
  (Rmax a (max_over viewCount works), Rmax b (max_over interactionTime works)).
Proof.
  revert a b. induction works as [|w works IH]; simpl; intros a b Ha Hb.
  - now rewrite !Rmax_left.
  - assert (Hstep : forall x y, 0 <= x ->
              (if Rgt_dec y x then y else x) = Rmax x y /\ 0 <= Rmax x y).
    { intros x y Hx. unfold Rmax.
      destruct (Rgt_dec y x), (Rle_dec x y); split; lra. }
    destruct (Hstep a (viewCount w) Ha) as [-> Ha'].
    destruct (Hstep b (interactionTime w) Hb) as [-> Hb'].
    rewrite (IH _ _ Ha' Hb'). now rewrite !Rmax_assoc.
Qed.

Lemma catalog_maxima_spec works :
  catalog_maxima works =
  (max_over viewCount works, max_over interactionTime works).
Proof.
  unfold catalog_maxima. rewrite running_maxima by lra.
  now rewrite !Rmax_right by apply max_over_nonneg.
Qed.

Lemma computeWorkScore_spec user works config work :
  computeWorkScore user work config
    (max_over viewCount works) (max_over interactionTime works) =
  content_score user works config work.
Proof.
  unfold computeWorkScore, content_score, normalized.
  pose proof (max_over_nonneg viewCount works) as Hv.
  pose proof (max_over_nonneg interactionTime works) as Ht.
  destruct (useMetrics config); [|lra].
  destruct (Rgt_dec (max_over viewCount works) 0),
           (Req_dec_T (max_over viewCount works) 0),
           (Rgt_dec (max_over interactionTime works) 0),
           (Req_dec_T (max_over interactionTime works) 0);
    try lra.
Qed.

Lemma cosineSimilarity_tags user w w' :
  work_tags w = work_tags w' ->
  cosineSimilarity user w = cosineSimilarity user w'.
Proof. unfold cosineSimilarity. now intros ->. Qed.

Section ContentFacts.

Context {std : StdLibrary}.

Lemma recommendContentBased_unfold user works config :
  recommendContentBased user works config =
  std_sort (map (fun w => (work_id w, content_score user works config w))
                works).
Proof.
  unfold recommendContentBased. rewrite catalog_maxima_spec.
  rewrite content_recs_map. simpl. f_equal.
  apply map_ext. intros w. now rewrite computeWorkScore_spec.
Qed.

Lemma recommendContentBased_ids user works config :
  Permutation (map work_id works)
              (ids (recommendContentBased user works config)).
Proof.
  rewrite recommendContentBased_unfold. unfold ids.
  rewrite <- std_sort_perm, map_map. simpl. reflexivity.
Qed.

Lemma recommendContentBased_unmetered user works works' config :
  useMetrics config = false ->
  map work_id works' = map work_id works ->
  map work_tags works' = map work_tags works ->
  recommendContentBased user works' config =
  recommendContentBased user works config.
Proof.
  intros Hoff Hid Htags. rewrite !recommendContentBased_unfold. f_equal.
  unfold content_score. rewrite Hoff.
  revert works' Hid Htags.
  induction works as [|w works IH]; intros [|w' works']; simpl;
    try discriminate; [reflexivity|].
  intros Hid Htags. inversion Hid. inversion Htags.
  f_equal; [|now apply IH].
  now rewrite (cosineSimilarity_tags user w' w) by assumption.
Qed.

End ContentFacts.

(** C4. The content-based list holds exactly one entry per catalog item
    (none for the empty catalog), scored
    weightTags * cosineSimilarity(user, item), plus, when useMetrics is
    set, weightViews * viewCount / maxViews
    + weightTime * interactionTime / maxTime, each quotient read as 0 when
    its maximum is 0; maxViews and maxTime bound every item of the
    catalog, are attained by one of them unless they are 0, and are the
    largest view count and interaction time of a nonempty catalog whose
    metrics are nonnegative.  With
    useMetrics unset, catalogs that agree on ids and tags give the same
    list whatever their view counts and interaction times. *)
Theorem recommendContentBased_scores {std : StdLibrary}
    (user : UserProfile) (works : list Work) (config : MetricsConfig) :
  let out := recommendContentBased user works config in
  let maxViews := max_over viewCount works in
  let maxTime := max_over interactionTime works in
  Permutation
    (map (fun w => (work_id w, content_score user works config w)) works)
    out /\
  List.length out = List.length works /\
  (works = [] -> out = []) /\
  (forall w, In w works ->
             viewCount w <= maxViews /\ interactionTime w <= maxTime) /\
  (maxViews = 0 \/ exists w, In w works /\ viewCount w = maxViews) /\
  (maxTime = 0 \/ exists w, In w works /\ interactionTime w = maxTime) /\
  (works <> [] ->
   Forall (fun w => 0 <= viewCount w) works ->
   Forall (fun w => 0 <= interactionTime w) works ->
   (exists w, In w works /\ viewCount w = maxViews) /\
   (exists w, In w works /\ interactionTime w = maxTime)) /\
  (useMetrics config = false ->
   (forall w, content_score user works config w =
              weightTags config * cosineSimilarity user w) /\
   (forall works',
       map work_id works' = map work_id works ->
       map work_tags works' = map work_tags works ->
       recommendContentBased user works' config = out)).
Proof.
  intros out maxViews maxTime.
  assert (Hp : Permutation
            (map (fun w => (work_id w, content_score user works config w))
                 works) out).
  { unfold out. rewrite recommendContentBased_unfold. apply std_sort_perm. }
  split; [exact Hp|]. split; [|split].
  - apply Permutation_length in Hp. rewrite length_map in Hp.
    symmetry. exact Hp.
  - intros ->. simpl in Hp. now apply Permutation_nil in Hp.
  - split; [|split; [|split; [|split]]].
    + intros w Hw. split; now apply max_over_upper.
    + apply max_over_attained.
    + apply max_over_attained.
    + intros Hne Hv Ht. split; now apply max_over_maximum.
    + intros Hoff. split.
      * intros w. unfold content_score. rewrite Hoff. lra.
      * intros works' Hid Htags.
        now apply recommendContentBased_unmetered.
Qed.

Lemma recommendContentBased_scores_witness :
  recommendContentBased (std := reference_library)
    (mkUserProfile [mkTag "scifi" 1])
    [mkWork "A" [mkTag "scifi" 1] 100 50]
    (mkMetricsConfig false 0.1 0.1 1)
  = recommendContentBased (std := reference_library)
      (mkUserProfile [mkTag "scifi" 1])
      [mkWork "A" [mkTag "scifi" 1] 7 3]
      (mkMetricsConfig false 0.1 0.1 1).
Proof.
  destruct (recommendContentBased_scores (std := reference_library)
              (mkUserProfile [mkTag "scifi" 1])
              [mkWork "A" [mkTag "scifi" 1] 7 3]
              (mkMetricsConfig false 0.1 0.1 1))
    as (_ & _ & _ & _ & _ & _ & _ & H).
  destruct (H eq_refl) as [_ H']. apply H'; reflexivity.
Defined.

(** C7. Each list returned by the content scorer (for a catalog whose ids
    are pairwise distinct), by the collaborative scorer and by the blender
    is sorted non-increasing by score and holds every item id at most
    once. *)
Theorem outputs_sorted_without_duplicates {std : StdLibrary} :
  (forall user works config,
      NoDup (map work_id works) ->
      sorted_desc (recommendContentBased user works config) /\
      NoDup (ids (recommendContentBased user works config))) /\
  (forall peers,
      sorted_desc (recommendCollaborative peers) /\
      NoDup (ids (recommendCollaborative peers))) /\
  (forall content collab cw lw,
      sorted_desc (combineRecommendations content collab cw lw) /\
      NoDup (ids (combineRecommendations content collab cw lw))).
Proof.
  split; [|split].
  - intros user works config Hnd. split.
    + rewrite recommendContentBased_unfold. apply std_sort_sorted.
    + eapply Permutation_NoDup;
        [apply recommendContentBased_ids | exact Hnd].
  - intros peers. split;
      [apply std_sort_sorted | apply recommendCollaborative_NoDup].
  - intros content collab cw lw. split;
      [apply combineRecommendations_sorted
      | apply combineRecommendations_NoDup].
Qed.

Lemma outputs_sorted_without_duplicates_witness :
  sorted_desc
    (recommendContentBased (std := reference_library)
       (mkUserProfile [mkTag "scifi" 1])
       [mkWork "A" [mkTag "scifi" 1] 100 50;
        mkWork "B" [mkTag "fantasy" 1] 10 5]
       (mkMetricsConfig true 0.1 0.1 1)).
Proof.
  destruct (outputs_sorted_without_duplicates (std := reference_library))
    as [H _].
  apply H. repeat constructor; simpl; try tauto.
  intros [E|[]]. discriminate E.
Defined.

(** ** Similarity engine *)

Lemma match_first_spec utags tag dot :
  match_first utags tag dot =
  dot + tag_value tag * first_user_value utags (tag_name tag).
Proof.
  unfold first_user_value.
  induction utags as [|utag rest IH]; simpl; [lra|].
  destruct (String.eqb (tag_name utag) (tag_name tag)); [lra | exact IH].
Qed.

Lemma squares_loop tags acc :
  fold_left (fun acc tag => acc + tag_value tag * tag_value tag) tags acc =
  acc + Rsum (map (fun tag => tag_value tag * tag_value tag) tags).
Proof.
  revert acc. induction tags as [|t tags IH]; simpl; intros acc; [lra|].
  rewrite IH. lra.
Qed.

Lemma item_loop utags wtags nw dot :
  fold_left (fun '(nw, d) tag =>
               (nw + tag_value tag * tag_value tag,
                match_first utags tag d))
            wtags (nw, dot) =
  (nw + Rsum (map (fun tag => tag_value tag * tag_value tag) wtags),
   dot + Rsum (map (fun tag =>
                      tag_value tag
                      * first_user_value utags (tag_name tag)) wtags)).
Proof.
  revert nw dot. induction wtags as [|t wtags IH]; simpl; intros nw dot.
  - f_equal; lra.
  - rewrite IH, match_first_spec. f_equal; lra.
Qed.

(** [cosineSimilarity] in closed form. *)
Lemma cosineSimilarity_closed_form user work :
  cosineSimilarity user work =
  if Req_dec_T (euclidean_norm (user_tags user)) 0 then 0
  else if Req_dec_T (euclidean_norm (work_tags work)) 0 then 0
  else dot_product user work
       / (euclidean_norm (user_tags user) * euclidean_norm (work_tags work)).
Proof.
  unfold cosineSimilarity, euclidean_norm, dot_product.
  rewrite squares_loop, item_loop, !Rplus_0_l. reflexivity.
Qed.

(** C3. [cosineSimilarity] is 0 when the Euclidean norm of either tag list
    is 0, and otherwise the dot product (over the item's tags, the item's
    value times the value of the first user tag of the same name, 0 when
    there is none) divided by the product of the two norms, which is then
    not 0. *)
Theorem cosineSimilarity_formula (user : UserProfile) (work : Work) :
  let normUser := euclidean_norm (user_tags user) in
  let normItem := euclidean_norm (work_tags work) in
  (normUser = 0 \/ normItem = 0 -> cosineSimilarity user work = 0) /\
  (normUser <> 0 -> normItem <> 0 ->
   normUser * normItem <> 0 /\
   cosineSimilarity user work =
   dot_product user work / (normUser * normItem)).
Proof.
  intros normUser normItem. rewrite cosineSimilarity_closed_form.
  fold normUser normItem.
  destruct (Req_dec_T normUser 0) as [Hu|Hu],
           (Req_dec_T normItem 0) as [Hw|Hw];
    (split; [intros; try reflexivity; tauto | intros; try contradiction]).
  split; [|reflexivity].
  intros Hz. apply Rmult_integral in Hz. tauto.
Qed.

Lemma cosineSimilarity_formula_witness :
  cosineSimilarity (mkUserProfile [mkTag "scifi" 1])
                   (mkWork "A" [mkTag "scifi" 1] 100 50) = 1.
Proof.
  assert (Hn : euclidean_norm [mkTag "scifi" 1] = 1).
  { unfold euclidean_norm, Rsum. simpl.
    replace (1 * 1 + 0) with 1 by lra. apply sqrt_1. }
  destruct (cosineSimilarity_formula (mkUserProfile [mkTag "scifi" 1])
              (mkWork "A" [mkTag "scifi" 1] 100 50)) as [_ H].
  simpl in H. rewrite Hn in H.
  destruct H as [_ ->]; try lra.
  unfold dot_product, first_user_value, Rsum. simpl. lra.
Defined.

Lemma first_user_value_cons utag utags name :
  first_user_value (utag :: utags) name =
  if String.eqb (tag_name utag) name then tag_value utag
  else first_user_value utags name.
Proof.
  unfold first_user_value. simpl.
  now destruct (String.eqb (tag_name utag) name).
Qed.

(** ** Diversifier *)

Lemma Int_part_unique r z : IZR z <= r < IZR z + 1 -> Int_part r = z.
Proof.
  intros [H1 H2]. unfold Int_part.
  rewrite <- (up_tech r z H1); [lia|]. now rewrite plus_IZR.
Qed.

Lemma Int_part_IZR z : Int_part (IZR z) = z.
Proof. apply Int_part_unique. lra. Qed.

Lemma trunc_to_int_floor x : 0 <= x -> trunc_to_int x = Int_part x.
Proof.
  intros Hx. unfold trunc_to_int. destruct (Rle_dec 0 x); [reflexivity|].
  contradiction.
Qed.

(** For a fraction in [0,1] the number of random picks is between 0 and
    the number requested. *)
Lemma numRandom_bounds n rf :
  (0 < n)%Z -> 0 <= rf <= 1 ->
  trunc_to_int (IZR n * rf) = Int_part (IZR n * rf) /\
  (0 <= Int_part (IZR n * rf) <= n)%Z.
Proof.
  intros Hn Hrf.
  assert (Hn' : 0 < IZR n) by now apply IZR_lt.
  assert (Hlo : 0 <= IZR n * rf) by (apply Rmult_le_pos; lra).
  assert (Hhi : IZR n * rf <= IZR n).
  { rewrite <- (Rmult_1_r (IZR n)) at 2. apply Rmult_le_compat_l; lra. }
  split; [now apply trunc_to_int_floor|].
  destruct (base_Int_part (IZR n * rf)) as [H1 H2].
  split.
  - assert (H : (-1 < Int_part (IZR n * rf))%Z) by (apply lt_IZR; lra). lia.
  - apply le_IZR. lra.
Qed.

Lemma to_int_le n : (0 <= n)%Z -> (to_int n <= n)%Z.
Proof.
  intros Hn. unfold to_int.
  pose proof (Z.mod_le (n + 2 ^ 31) (2 ^ 32)) as H. lia.
Qed.

Lemma to_size_t_le n : (0 <= n)%Z -> (to_size_t n <= n)%Z.
Proof. intros Hn. unfold to_size_t. apply Z.mod_le; lia. Qed.

Lemma to_size_t_small n : (0 <= n < 2 ^ 64)%Z -> to_size_t n = n.
Proof. intros Hn. unfold to_size_t. now apply Z.mod_small. Qed.

Lemma skipn_nth_error (v : list ScoredEntry) k x :
  nth_error v k = Some x -> skipn k v = x :: skipn (S k) v.
Proof.
  revert k. induction v as [|y v IH]; intros [|k]; simpl; try discriminate.
  - now intros [= ->].
  - intros H. now rewrite (IH _ H).
Qed.

(** A copy loop guarded by [i < a && i < b], with [b] within the vector,
    appends the elements from [i] up to [min a b]. *)
Lemma index_loop_slice v a b fuel i acc :
  (0 <= i)%Z -> (b <= vsize v)%Z ->
  (Z.to_nat (Z.min a b - i) < fuel)%nat ->
  index_loop fuel (fun i => (i <? a)%Z && (i <? b)%Z) v i acc =
  Some (acc ++ firstn (Z.to_nat (Z.min a b - i)) (skipn (Z.to_nat i) v)).
Proof.
  intros Hi Hb. revert i acc Hi.
  induction fuel as [|fuel IH]; intros i acc Hi Hfuel; [lia|].
  simpl.
  destruct (i <? a)%Z eqn:Ea; [destruct (i <? b)%Z eqn:Eb|]; simpl.
  - apply Z.ltb_lt in Ea, Eb.
    destruct (nth_error v (Z.to_nat i)) as [x|] eqn:Ex.
    + rewrite IH by lia.
      rewrite (skipn_nth_error _ _ _ Ex).
      replace (Z.to_nat (Z.min a b - i))
        with (S (Z.to_nat (Z.min a b - (i + 1)))) by lia.
      replace (Z.to_nat (i + 1)) with (S (Z.to_nat i)) by lia.
      simpl. now rewrite <- app_assoc.
    + apply nth_error_None in Ex. unfold vsize in Hb. lia.
  - apply Z.ltb_ge in Eb.
    replace (Z.to_nat (Z.min a b - i)) with O by lia.
    simpl. now rewrite app_nil_r.
  - apply Z.ltb_ge in Ea.
    replace (Z.to_nat (Z.min a b - i)) with O by lia.
    simpl. now rewrite app_nil_r.
Qed.

Lemma index_loop_prefix v a b acc :
  (b <= vsize v)%Z ->
  index_loop (S (List.length v)) (fun i => (i <? a)%Z && (i <? b)%Z) v 0 acc =
  Some (acc ++ firstn (Z.to_nat (Z.min a b)) v).
Proof.
  intros Hb. rewrite index_loop_slice; try lia.
  - now rewrite Z.sub_0_r.
  - unfold vsize in Hb. lia.
Qed.

Lemma vsize_nonneg v : (0 <= vsize v)%Z.
Proof. unfold vsize. lia. Qed.

Section DiversifierFacts.

Context {std : StdLibrary}.

(** The three loops and the two shuffles in closed form. *)
Lemma getRandomizedRecommendations_unfold recs n rf g :
  (0 < n)%Z ->
  getRandomizedRecommendations recs n rf g =
  let numRandom := trunc_to_int (IZR n * rf) in
  let numTop := (n - numRandom)%Z in
  let top := firstn (Z.to_nat (Z.min (to_size_t numTop) (vsize recs))) recs in
  let pool :=
    firstn (Z.to_nat (Z.min numTop (to_int (vsize recs)))) recs in
  let shuffled := std_shuffle pool g in
  let picked :=
    firstn (Z.to_nat (Z.min numRandom (to_int (vsize (fst shuffled)))))
           (fst shuffled) in
  Some (fst (std_shuffle (top ++ picked) (snd shuffled))).
Proof.
  intros Hn. unfold getRandomizedRecommendations.
  destruct (n <=? 0)%Z eqn:E; [apply Z.leb_le in E; lia|].
  rewrite !index_loop_prefix
    by (try apply to_int_le; try apply vsize_nonneg; lia).
  rewrite !app_nil_l.
  destruct (std_shuffle _ g) as [shuffled g'] eqn:Es. cbn [fst snd].
  rewrite index_loop_prefix by (apply to_int_le, vsize_nonneg).
  reflexivity.
Qed.

Lemma shuffled_In l g e : In e (fst (std_shuffle l g)) <-> In e l.
Proof.
  split; apply Permutation_in;
    [apply Permutation_sym|]; apply std_shuffle_perm.
Qed.

Lemma shuffled_length l g :
  List.length (fst (std_shuffle l g)) = List.length l.
Proof. symmetry. apply Permutation_length, std_shuffle_perm. Qed.

End DiversifierFacts.

Lemma firstn_In_le (l : list ScoredEntry) a b e :
  (a <= b)%nat -> In e (firstn a l) -> In e (firstn b l).
Proof.
  intros Hab. revert a b Hab.
  induction l as [|x l IH]; intros [|a] [|b] Hab; simpl; try tauto; try lia.
  intros [->|H]; [now left | right]. apply (IH a b); [lia | exact H].
Qed.

Lemma firstn_In (l : list ScoredEntry) a e : In e (firstn a l) -> In e l.
Proof.
  revert a. induction l as [|x l IH]; intros [|a]; simpl; try tauto.
  intros [->|H]; [now left | right; eauto].
Qed.

Lemma firstn_beyond (l : list ScoredEntry) (a : Z) :
  firstn (Z.to_nat (Z.min a (vsize l))) l = firstn (Z.to_nat a) l.
Proof.
  unfold vsize. destruct (Z.le_ge_cases a (Z.of_nat (List.length l))).
  - now rewrite Z.min_l.
  - rewrite Z.min_r, Nat2Z.id, firstn_all by assumption.
    symmetry. apply firstn_all2. lia.
Qed.

Lemma shuffle_nil {std : StdLibrary} g : fst (std_shuffle [] g) = [].
Proof. apply Permutation_nil, std_shuffle_perm. Qed.

(** C1. For a positive request and a fraction in [0,1], with
    numRandom = floor(numRecommendations * randomFactor) and
    numTop = numRecommendations - numRandom, the call returns, and each
    returned entry is one of the first numTop entries of the ranked list,
    whatever the shuffles do; with randomFactor = 0 the result is a
    rearrangement of the first numRecommendations entries. *)
Theorem randomized_from_top_slice {std : StdLibrary}
    (recs : list ScoredEntry) (n : Z) (rf : R) (g : mt19937) :
  is_int n -> (0 < n)%Z -> 0 <= rf <= 1 ->
  let numRandom := Int_part (IZR n * rf) in
  let numTop := (n - numRandom)%Z in
  exists out,
    getRandomizedRecommendations recs n rf g = Some out /\
    (forall e, In e out -> In e (firstn (Z.to_nat numTop) recs)) /\
    (rf = 0 -> Permutation out (firstn (Z.to_nat n) recs)).
Proof.
  intros Hint Hn Hrf numRandom numTop.
  destruct (numRandom_bounds n rf Hn Hrf) as [Htr Hb].
  fold numRandom in Htr, Hb.
  rewrite getRandomizedRecommendations_unfold by assumption.
  cbv zeta. rewrite Htr. fold numTop.
  eexists. split; [reflexivity|]. split.
  - intros e He. apply shuffled_In, in_app_or in He.
    destruct He as [He|He].
    + eapply firstn_In_le; [|exact He].
      pose proof (to_size_t_le numTop). lia.
    + apply firstn_In, shuffled_In in He.
      eapply firstn_In_le; [|exact He]. lia.
  - intros ->.
    assert (H0 : numRandom = 0%Z).
    { unfold numRandom. rewrite Rmult_0_r. apply (Int_part_IZR 0). }
    assert (Htop : numTop = n) by (unfold numTop; lia).
    rewrite Htop, H0.
    replace (Z.to_nat (Z.min 0 _)) with O
      by (pose proof (vsize_nonneg recs); lia).
    rewrite firstn_O, app_nil_r, <- std_shuffle_perm.
    rewrite to_size_t_small, firstn_beyond; [reflexivity|].
    unfold is_int, INT_MIN, INT_MAX in Hint. lia.
Qed.

Lemma randomized_from_top_slice_witness :
  exists out,
    getRandomizedRecommendations (std := reference_library)
      [("a"%string, 3); ("b"%string, 2)] 1 0 [] = Some out /\
    Permutation out (firstn (Z.to_nat 1) [("a"%string, 3); ("b"%string, 2)]).
Proof.
  destruct (randomized_from_top_slice (std := reference_library)
              [("a"%string, 3); ("b"%string, 2)] 1 0 [])
    as [out [H1 [_ H3]]].
  - unfold is_int, INT_MIN, INT_MAX. lia.
  - lia.
  - lra.
  - exists out. split; [exact H1 | now apply H3].
Defined.

(** C10. With randomFactor = 1 and a positive request nothing is returned,
    whatever the ranked list holds. *)
Theorem randomized_all_random_is_empty {std : StdLibrary}
    (recs : list ScoredEntry) (n : Z) (g : mt19937) :
  (0 < n)%Z -> getRandomizedRecommendations recs n 1 g = Some [].
Proof.
  intros Hn.
  rewrite getRandomizedRecommendations_unfold by assumption. cbv zeta.
  assert (Htr : trunc_to_int (IZR n * 1) = n).
  { rewrite Rmult_1_r, trunc_to_int_floor; [apply Int_part_IZR|].
    apply IZR_le. lia. }
  rewrite Htr, Z.sub_diag.
  pose proof (vsize_nonneg recs) as Hsz.
  pose proof (to_int_le _ Hsz) as Hti.
  replace (Z.to_nat (Z.min (to_size_t 0) (vsize recs))) with O
    by (unfold to_size_t; rewrite Z.mod_0_l; lia).
  replace (Z.to_nat (Z.min 0 (to_int (vsize recs)))) with O by lia.
  rewrite !firstn_O, shuffle_nil, firstn_nil. simpl.
  now rewrite shuffle_nil.
Qed.

Lemma randomized_all_random_is_empty_witness :
  getRandomizedRecommendations (std := reference_library)
    [("a"%string, 3); ("b"%string, 2)] 2 1 [] = Some [].
Proof.
  apply (randomized_all_random_is_empty (std := reference_library)). lia.
Defined.

Lemma trunc_to_int_IZR z : (0 <= z)%Z -> trunc_to_int (IZR z) = z.
Proof.
  intros Hz. rewrite trunc_to_int_floor; [apply Int_part_IZR|].
  now apply IZR_le.
Qed.

(** C8. What the code returns where the claim fails.  With the reference
    library and a generator whose draws are all 0 (both shuffles then keep
    the order):
    a one-entry list, 2 requested, randomFactor 1: nothing is returned;
    a one-entry list, 4 requested, randomFactor 1/2: the entry is
    returned twice;
    a three-entry list, 1 requested, randomFactor 2: three entries are
    returned. *)
Lemma randomized_length_counterexample :
  getRandomizedRecommendations (std := reference_library)
    [("a"%string, 1)] 2 1 [] = Some []
  /\ getRandomizedRecommendations (std := reference_library)
       [("a"%string, 1)] 4 (1 / 2) []
     = Some [("a"%string, 1); ("a"%string, 1)]
  /\ getRandomizedRecommendations (std := reference_library)
       [("a"%string, 3); ("b"%string, 2); ("c"%string, 1)] 1 2 []
     = Some [("a"%string, 3); ("b"%string, 2); ("c"%string, 1)].
Proof.
  split; [|split].
  - rewrite getRandomizedRecommendations_unfold by lia. cbv zeta.
    replace (IZR 2 * 1) with (IZR 2) by lra.
    rewrite trunc_to_int_IZR by lia. reflexivity.
  - rewrite getRandomizedRecommendations_unfold by lia. cbv zeta.
    replace (IZR 4 * (1 / 2)) with (IZR 2) by lra.
    rewrite trunc_to_int_IZR by lia. reflexivity.
  - rewrite getRandomizedRecommendations_unfold by lia. cbv zeta.
    replace (IZR 1 * 2) with (IZR 2) by lra.
    rewrite trunc_to_int_IZR by lia. reflexivity.
Qed.

(** ** Scenario *)

(** The content scenario of the specification, in exact arithmetic: a user
    with scifi 1.0, item A (scifi 1.0, 100 views, 50 s) and item B
    (fantasy 1.0, 10 views, 5 s), metrics on with weights 0.1, 0.1 and
    1.0. *)
Example content_scenario {std : StdLibrary} :
  recommendContentBased
    (mkUserProfile [mkTag "scifi" 1])
    [mkWork "A" [mkTag "scifi" 1] 100 50;
     mkWork "B" [mkTag "fantasy" 1] 10 5]
    (mkMetricsConfig true 0.1 0.1 1)
  = [("A"%string, 1.2); ("B"%string, 0.02)].
Proof.
  set (user := mkUserProfile [mkTag "scifi" 1]).
  set (A := mkWork "A" [mkTag "scifi" 1] 100 50).
  set (B := mkWork "B" [mkTag "fantasy" 1] 10 5).
  set (config := mkMetricsConfig true 0.1 0.1 1).
  assert (Hn : forall name, euclidean_norm [mkTag name 1] = 1).
  { intros name. unfold euclidean_norm, Rsum. simpl.
    replace (1 * 1 + 0) with 1 by lra. apply sqrt_1. }
  assert (HcA : cosineSimilarity user A = 1).
  { rewrite cosineSimilarity_closed_form. simpl. rewrite !Hn.
    destruct (Req_dec_T 1 0); [lra|].
    unfold dot_product, first_user_value, Rsum. simpl. lra. }
  assert (HcB : cosineSimilarity user B = 0).
  { rewrite cosineSimilarity_closed_form. simpl. rewrite !Hn.
    destruct (Req_dec_T 1 0); [lra|].
    unfold dot_product, first_user_value, Rsum. simpl. lra. }
  assert (Hmv : max_over viewCount [A; B] = 100).
  { simpl. rewrite (Rmax_left 10 0), Rmax_left; lra. }
  assert (Hmt : max_over interactionTime [A; B] = 50).
  { simpl. rewrite (Rmax_left 5 0), Rmax_left; lra. }
  assert (HA : content_score user [A; B] config A = 1.2).
  { unfold content_score, normalized. rewrite Hmv, Hmt, HcA. simpl.
    destruct (Req_dec_T 100 0), (Req_dec_T 50 0); lra. }
  assert (HB : content_score user [A; B] config B = 0.02).
  { unfold content_score, normalized. rewrite Hmv, Hmt, HcB. simpl.
    destruct (Req_dec_T 100 0), (Req_dec_T 50 0); lra. }
  rewrite recommendContentBased_unfold. simpl map. rewrite HA, HB.
  apply sorted_pair; [simpl; lra | apply std_sort_perm | apply std_sort_sorted].
Qed.

(** * Further properties *)

(** ** trim *)

Lemma find_first_none s chars :
  find_first_not_of s chars = None <-> all_in chars s = true.
Proof.
  induction s as [|c s IH]; simpl; [tauto|].
  destruct (contains chars c); simpl.
  - rewrite <- IH. destruct (find_first_not_of s chars); simpl;
      split; congruence.
  - split; discriminate.
Qed.

Lemma find_last_none s chars :
  find_last_not_of s chars = None <-> all_in chars s = true.
Proof.
  induction s as [|c s IH]; simpl; [tauto|].
  destruct (find_last_not_of s chars) eqn:E.
  - split; [discriminate|]. intros H. apply andb_prop in H.
    destruct H as [_ H]. apply IH in H. discriminate.
  - destruct (contains chars c); simpl; [tauto|].
    split; discriminate.
Qed.

Lemma ends_clean_cons c s :
  s <> EmptyString -> ends_clean (String c s) = ends_clean s.
Proof. destruct s; [contradiction | reflexivity]. Qed.

Lemma ends_clean_nonempty s : ends_clean s = true -> s <> EmptyString.
Proof. destruct s; [discriminate | discriminate]. Qed.

(** What [find_last_not_of] returns splits the string into a part ending
    in a non-blank character and a blank rest. *)
Lemma find_last_split s e :
  find_last_not_of s whitespace = Some e ->
  exists r,
    s = (substring 0 (S e) s ++ r)%string /\
    all_in whitespace r = true /\
    ends_clean (substring 0 (S e) s) = true.
Proof.
  revert e. induction s as [|c s IH]; intros e; [discriminate|].
  cbn [find_last_not_of].
  destruct (find_last_not_of s whitespace) as [i|] eqn:E.
  - intros [= <-]. destruct (IH i eq_refl) as [r [Hs [Hr Hc]]].
    exists r. cbn [substring append]. split; [now rewrite <- Hs|].
    split; [exact Hr|].
    rewrite ends_clean_cons; [exact Hc | now apply ends_clean_nonempty].
  - destruct (contains whitespace c) eqn:Ec; [discriminate|].
    intros [= <-]. exists s. cbn [substring append].
    replace (substring 0 0 s) with EmptyString by now destruct s.
    split; [reflexivity|]. split; [now apply find_last_none|].
    cbn [ends_clean]. now rewrite Ec.
Qed.

Lemma trim_blank_cons c s :
  contains whitespace c = true -> trim (String c s) = trim s.
Proof.
  intros Hc. unfold trim. cbn [find_first_not_of find_last_not_of].
  rewrite Hc.
  destruct (find_first_not_of s whitespace) as [start|] eqn:Ef;
    [|reflexivity].
  cbn [option_map].
  destruct (find_last_not_of s whitespace) as [e|] eqn:El.
  - unfold substr, trim_count. cbn [String.length substring].
    replace (S e - S start + 1)%nat with (e - start + 1)%nat by lia.
    reflexivity.
  - apply find_last_none, find_first_none in El. congruence.
Qed.

Lemma trim_clean_cons c s :
  contains whitespace c = false ->
  exists e,
    find_last_not_of (String c s) whitespace = Some e /\
    trim (String c s) = Some (substring 0 (S e) (String c s)).
Proof.
  intros Hc.
  assert (He : exists e, find_last_not_of (String c s) whitespace = Some e).
  { cbn [find_last_not_of].
    destruct (find_last_not_of s whitespace); [eauto|].
    rewrite Hc. eauto. }
  destruct He as [e He]. exists e. split; [exact He|].
  unfold trim. rewrite He. cbn [find_first_not_of]. rewrite Hc.
  unfold substr, trim_count. cbn [Nat.ltb Nat.leb].
  now replace (e - 0 + 1)%nat with (S e) by lia.
Qed.

Lemma append_empty_r s : (s ++ EmptyString)%string = s.
Proof. induction s as [|c s IH]; simpl; [reflexivity | now rewrite IH]. Qed.

Lemma all_in_append chars s1 s2 :
  all_in chars (s1 ++ s2) = (all_in chars s1 && all_in chars s2)%bool.
Proof.
  induction s1 as [|c s1 IH]; simpl; [reflexivity|].
  now rewrite IH, andb_assoc.
Qed.

(** Every string is blanks, then its trimmed form, then blanks. *)
Lemma trim_split s :
  exists t l r,
    trim s = Some t /\ s = (l ++ t ++ r)%string /\
    all_in whitespace l = true /\ all_in whitespace r = true /\ trimmed t.
Proof.
  induction s as [|c s IH].
  - exists EmptyString, EmptyString, EmptyString.
    repeat split; try reflexivity. now left.
  - destruct (contains whitespace c) eqn:Ec.
    + destruct IH as [t [l [r [Ht [Hs [Hl [Hr Hc]]]]]]].
      exists t, (String c l), r. rewrite trim_blank_cons by assumption.
      repeat split; try assumption.
      * cbn [append]. now rewrite <- Hs.
      * cbn [all_in]. now rewrite Ec, Hl.
    + destruct (trim_clean_cons c s Ec) as [e [He Ht]].
      destruct (find_last_split _ _ He) as [r [Hs [Hr Hc]]].
      exists (substring 0 (S e) (String c s)), EmptyString, r.
      repeat split; try assumption; try reflexivity.
      right. split; [|exact Hc].
      cbn [substring starts_clean]. now rewrite Ec.
Qed.

Lemma find_last_padded t r :
  ends_clean t = true -> all_in whitespace r = true ->
  find_last_not_of (t ++ r) whitespace = Some (String.length t - 1)%nat.
Proof.
  intros Hc Hr. induction t as [|c t IH]; [discriminate|].
  cbn [append find_last_not_of].
  destruct t as [|c' t'].
  - cbn [append]. apply find_last_none in Hr. rewrite Hr.
    cbn [ends_clean] in Hc. apply negb_true_iff in Hc. now rewrite Hc.
  - rewrite IH by exact Hc. cbn [String.length]. f_equal. lia.
Qed.

Lemma substring_prefix t r :
  substring 0 (String.length t) (t ++ r) = t.
Proof.
  induction t as [|c t IH]; cbn [String.length append substring].
  - now destruct r.
  - now rewrite IH.
Qed.

(** Blanks around a trimmed string are removed, and nothing else. *)
Lemma trim_of_padded l t r :
  all_in whitespace l = true -> all_in whitespace r = true -> trimmed t ->
  trim (l ++ t ++ r) = Some t.
Proof.
  intros Hl Hr Ht. induction l as [|c l IH].
  - cbn [append]. destruct Ht as [->|[Hs He]].
    + cbn [append]. unfold trim.
      apply find_first_none in Hr. now rewrite Hr.
    + destruct t as [|c t]; [discriminate|].
      cbn [starts_clean] in Hs. apply negb_true_iff in Hs.
      cbn [append].
      destruct (trim_clean_cons c (t ++ r) Hs) as [e [Hlast ->]].
      change (String c (t ++ r)) with (String c t ++ r)%string in *.
      rewrite (find_last_padded _ _ He Hr) in Hlast.
      assert (E : S e = String.length (String c t))
        by (cbn [String.length] in *; injection Hlast; lia).
      now rewrite E, substring_prefix.
  - cbn [all_in] in Hl. apply andb_prop in Hl. destruct Hl as [Hc Hl].
    cbn [append]. rewrite trim_blank_cons by exact Hc. now apply IH.
Qed.

(** [trim] never throws; its result is the input without the blanks
    before its first and after its last non-blank character, is empty
    exactly for an all-blank input, and is left unchanged by a second
    [trim]. *)
Theorem trim_decomposition (s : string) :
  exists t l r,
    trim s = Some t /\ s = (l ++ t ++ r)%string /\
    all_in whitespace l = true /\ all_in whitespace r = true /\
    trimmed t /\
    (t = EmptyString <-> all_in whitespace s = true) /\
    trim t = Some t.
Proof.
  destruct (trim_split s) as [t [l [r [Ht [Hs [Hl [Hr Hc]]]]]]].
  exists t, l, r. repeat split; try assumption.
  - intros ->. rewrite Hs, !all_in_append, Hl, Hr. reflexivity.
  - intros Hall. unfold trim in Ht.
    apply find_first_none in Hall. rewrite Hall in Ht. congruence.
  - pose proof (trim_of_padded EmptyString t EmptyString
                  eq_refl eq_refl Hc) as H.
    cbn [append] in H. now rewrite append_empty_r in H.
Qed.

(** Blanks added around a string that starts and ends with a non-blank
    character (or is empty) are exactly what [trim] removes; blanks inside
    it stay. *)
Theorem trim_removes_padding (l t r : string) :
  all_in whitespace l = true -> all_in whitespace r = true -> trimmed t ->
  trim (l ++ t ++ r) = Some t.
Proof. apply trim_of_padded. Qed.

Lemma trim_removes_padding_witness :
  trim ("  " ++ "USER PROFILE" ++ " ")%string = Some "USER PROFILE"%string.
Proof.
  apply (trim_removes_padding "  " "USER PROFILE" " ");
    try reflexivity.
  right. split; reflexivity.
Defined.

(** The search loop of [main] stops right after the first line that is
    the header once trimmed, whatever precedes it, and runs to the end of
    the input when no line is. *)
Theorem seek_section_first_match (header : string) (lines : list string) :
  (forall pre line post,
      lines = pre ++ line :: post ->
      Forall (fun l => trim l <> Some header) pre ->
      trim line = Some header ->
      seek_section header lines = Some post) /\
  (Forall (fun l => trim l <> Some header) lines ->
   seek_section header lines = Some []).
Proof.
  assert (Hskip : forall l rest,
             trim l <> Some header ->
             seek_section header (l :: rest) = seek_section header rest).
  { intros l rest Hl. cbn [seek_section].
    destruct (trim_split l) as [t [_ [_ [Ht _]]]]. rewrite Ht in *.
    destruct (String.eqb_spec t header) as [->|_];
      [contradiction | reflexivity]. }
  split.
  - intros pre line post -> Hpre Hline.
    induction Hpre as [|l pre Hl _ IH]; cbn [app].
    + cbn [seek_section]. now rewrite Hline, String.eqb_refl.
    + now rewrite Hskip.
  - intros Hall. induction Hall as [|l rest Hl _ IH]; [reflexivity|].
    now rewrite Hskip.
Qed.

Lemma seek_section_first_match_witness :
  seek_section "WORKS" ["junk"%string; " WORKS  "%string; "2"%string]
  = Some ["2"%string].
Proof.
  destruct (seek_section_first_match "WORKS"
              ["junk"%string; " WORKS  "%string; "2"%string]) as [H _].
  apply (H ["junk"%string] " WORKS  "%string ["2"%string]).
  - reflexivity.
  - constructor; [|constructor]. intros E. vm_compute in E. discriminate E.
  - reflexivity.
Defined.

(** ** Similarity engine, continued *)

Lemma Rsum_zeros (l : list Tag) : Rsum (map (fun _ => 0) l) = 0.
Proof.
  unfold Rsum. induction l as [|t l IH]; simpl; [reflexivity|].
  rewrite IH. lra.
Qed.

Lemma first_user_value_absent utags name :
  ~ In name (map tag_name utags) -> first_user_value utags name = 0.
Proof.
  induction utags as [|u utags IH]; simpl; intros Hno;
    [reflexivity|].
  rewrite first_user_value_cons.
  destruct (String.eqb_spec (tag_name u) name) as [E|_]; [tauto|].
  apply IH. tauto.
Qed.

(** An item none of whose tag names is a tag name of the user has
    similarity 0. *)
Theorem cosineSimilarity_disjoint (user : UserProfile) (work : Work) :
  (forall tag, In tag (work_tags work) ->
               ~ In (tag_name tag) (map tag_name (user_tags user))) ->
  cosineSimilarity user work = 0.
Proof.
  intros Hdis. rewrite cosineSimilarity_closed_form.
  assert (Hd : dot_product user work = 0).
  { unfold dot_product.
    rewrite (map_ext_in _ (fun _ => 0)).
    - apply Rsum_zeros.
    - intros t Ht. rewrite first_user_value_absent by now apply Hdis.
      lra. }
  rewrite Hd.
  destruct (Req_dec_T _ 0); [reflexivity|].
  destruct (Req_dec_T _ 0); [reflexivity|].
  unfold Rdiv. lra.
Qed.

Lemma cosineSimilarity_disjoint_witness :
  cosineSimilarity (mkUserProfile [mkTag "scifi" 1])
                   (mkWork "B" [mkTag "fantasy" 1] 10 5) = 0.
Proof.
  apply (cosineSimilarity_disjoint (mkUserProfile [mkTag "scifi" 1])
           (mkWork "B" [mkTag "fantasy" 1] 10 5)).
  simpl. intros tag [<-|[]] [E|[]]. discriminate E.
Defined.

(** ** Collaborative scorer, continued *)




(** The collaborative list is empty exactly when no peer likes anything
    (in particular when there are no peers). *)
Theorem recommendCollaborative_empty {std : StdLibrary}
    (peers : list SimilarUser) :
  recommendCollaborative peers = [] <->
  Forall (fun peer => likedWorks peer = []) peers.
Proof.
  split.
  - intros Hout. apply Forall_forall. intros peer Hp.
    destruct (likedWorks peer) as [|k liked] eqn:E; [reflexivity|].
    exfalso.
    assert (Hin : In (k, contribution (liked_pairs peers) k)
                     (recommendCollaborative peers)).
    { apply recommendCollaborative_In. split; [|reflexivity].
      exists peer. split; [exact Hp|]. rewrite E. now left. }
    now rewrite Hout in Hin.
  - intros Hall.
    destruct (recommendCollaborative peers) as [|[k s] out] eqn:E;
      [reflexivity|].
    exfalso.
    assert (Hin : In (k, s) (recommendCollaborative peers))
      by (rewrite E; now left).
    apply recommendCollaborative_In in Hin.
    destruct Hin as [[peer [Hp Hk]] _].
    rewrite Forall_forall in Hall. rewrite (Hall peer Hp) in Hk.
    exact Hk.
Qed.

Lemma umap_find_mentions l k :
  NoDup (ids l) ->
  umap_find l k = if mentions l k then Some (contribution l k) else None.
Proof.
  induction l as [|[k' v] l IH]; intros Hnd; [reflexivity|].
  inversion Hnd as [|? ? Hnotin Hnd']; subst.
  cbn [umap_find]. rewrite mentions_cons, contribution_cons.
  destruct (String.eqb_spec k' k) as [->|Hk]; simpl.
  - rewrite contribution_absent by exact Hnotin. f_equal. lra.
  - now apply IH.
Qed.

Lemma score_or_zero_contribution l k :
  NoDup (ids l) -> score_or_zero l k = contribution l k.
Proof.
  intros Hnd. unfold score_or_zero. rewrite umap_find_mentions by exact Hnd.
  destruct (mentions l k) eqn:E; [reflexivity|].
  symmetry. apply contribution_absent. rewrite <- mentions_In. congruence.
Qed.



Section CollaborativeComposition.

Context {std : StdLibrary}.


End CollaborativeComposition.

(** ** Blender, continued *)



(** The blended list has one entry per distinct id of the two inputs. *)
Theorem combineRecommendations_length {std : StdLibrary}
    (content collab : list ScoredEntry) (cw lw : R) :
  List.length (combineRecommendations content collab cw lw) =
  List.length (nodup string_dec (ids content ++ ids collab)).
Proof.
  transitivity
    (List.length (ids (combineRecommendations content collab cw lw)));
    [symmetry; apply length_map|].
  apply Permutation_length, NoDup_Permutation.
  - apply combineRecommendations_NoDup.
  - apply NoDup_nodup.
  - intros k. rewrite nodup_In, in_app_iff. split.
    + intros H. unfold ids in H. apply in_map_iff in H.
      destruct H as [[k' s] [E H]]. simpl in E. subst k'.
      apply combineRecommendations_In in H. tauto.
    + intros H.
      apply (in_map fst _
               (k, contribution (scaled cw content) k
                   + contribution (scaled lw collab) k)).
      apply combineRecommendations_In. split; [exact H | reflexivity].
Qed.

Lemma NoDup_ids_scaled w l : NoDup (ids l) -> NoDup (ids (scaled w l)).
Proof. now rewrite ids_scaled. Qed.

(** Blending with an empty list on one side only multiplies the scores of
    the other side by that side's weight; blending two empty lists gives
    the empty list. *)
Theorem combineRecommendations_one_side_empty {std : StdLibrary}
    (recs : list ScoredEntry) (cw lw : R) :
  NoDup (ids recs) ->
  Permutation (combineRecommendations recs [] cw lw) (scaled cw recs) /\
  Permutation (combineRecommendations [] recs cw lw) (scaled lw recs) /\
  combineRecommendations [] [] cw lw = [].
Proof.
  intros Hnd.
  assert (Hside : forall w content collab,
             (content = recs /\ collab = [] /\ w = cw) \/
             (content = [] /\ collab = recs /\ w = lw) ->
             Permutation (combineRecommendations content collab cw lw)
                         (scaled w recs)).
  { intros w content collab Hcase.
    unfold combineRecommendations. rewrite <- sorted_view_perm.
    apply umap_lookup_perm;
      [apply combined_scores_NoDup | now apply NoDup_ids_scaled |].
    intros k. rewrite combined_scores_find.
    rewrite (umap_find_mentions (scaled w recs))
      by now apply NoDup_ids_scaled.
    rewrite mentions_scaled.
    destruct Hcase as [(-> & -> & ->)|(-> & -> & ->)]; simpl.
    - rewrite orb_false_r.
      destruct (mentions recs k); [|reflexivity].
      f_equal. unfold contribution at 2. simpl. lra.
    - destruct (mentions recs k); [|reflexivity].
      f_equal. unfold contribution at 1. simpl. lra. }
  split; [apply Hside; left; tauto|].
  split; [apply Hside; right; tauto|].
  apply Permutation_nil. unfold combineRecommendations.
  rewrite <- sorted_view_perm. reflexivity.
Qed.

Lemma combineRecommendations_one_side_empty_witness :
  Permutation
    (combineRecommendations (std := reference_library)
       [("A"%string, 2); ("B"%string, 1)] [] 0.5 0.5)
    (scaled 0.5 [("A"%string, 2); ("B"%string, 1)]).
Proof.
  destruct (combineRecommendations_one_side_empty (std := reference_library)
              [("A"%string, 2); ("B"%string, 1)] 0.5 0.5) as [H _].
  - repeat constructor; simpl; try tauto.
    intros [E|[]]. discriminate E.
  - exact H.
Defined.

(** ** Diversifier, continued *)

Lemma to_int_small n : (0 <= n <= INT_MAX)%Z -> to_int n = n.
Proof.
  unfold INT_MAX, to_int. intros Hn. rewrite Z.mod_small; lia.
Qed.

Lemma NoDup_firstn (l : list ScoredEntry) k : NoDup l -> NoDup (firstn k l).
Proof.
  revert k. induction l as [|x l IH]; intros [|k] Hnd; simpl;
    try constructor.
  - inversion Hnd; subst. intros H. apply firstn_In in H. contradiction.
  - inversion Hnd; subst. now apply IH.
Qed.

Lemma NoDup_app_apart (l1 l2 : list ScoredEntry) e :
  NoDup (l1 ++ l2) -> In e l1 -> In e l2 -> False.
Proof.
  induction l1 as [|x l1 IH]; simpl; intros Hnd H1 H2; [exact H1|].
  inversion Hnd as [|? ? Hnotin Hnd']; subst.
  destruct H1 as [->|H1]; [|now apply IH].
  apply Hnotin, in_or_app. now right.
Qed.

Section DiversifierMore.

Context {std : StdLibrary}.

(** The call returns for every argument, and only entries of its input. *)
Lemma getRandomizedRecommendations_total recs n rf g :
  exists out,
    getRandomizedRecommendations recs n rf g = Some out /\
    forall e, In e out -> In e recs.
Proof.
  destruct (Z.le_gt_cases n 0) as [Hn|Hn].
  - exists []. split; [|intros e []].
    unfold getRandomizedRecommendations.
    apply Z.leb_le in Hn. now rewrite Hn.
  - rewrite getRandomizedRecommendations_unfold by lia. cbv zeta.
    eexists. split; [reflexivity|].
    intros e He. apply shuffled_In, in_app_or in He.
    destruct He as [He|He]; [now apply firstn_In in He|].
    apply firstn_In, shuffled_In in He. now apply firstn_In in He.
Qed.

(** With a fraction in [0,1] and a list that fits an [int], the result is
    a rearrangement of the kept top slice followed by the first picks of
    its shuffle. *)
Lemma getRandomizedRecommendations_shape recs n rf g :
  is_int n -> (0 < n)%Z -> 0 <= rf <= 1 -> (vsize recs <= INT_MAX)%Z ->
  let numRandom := Int_part (IZR n * rf) in
  let numTop := (n - numRandom)%Z in
  let top := firstn (Z.to_nat numTop) recs in
  exists out shuffled,
    getRandomizedRecommendations recs n rf g = Some out /\
    Permutation top shuffled /\
    Permutation (top ++ firstn (Z.to_nat numRandom) shuffled) out.
Proof.
  intros Hint Hn Hrf Hsz numRandom numTop top.
  destruct (numRandom_bounds n rf Hn Hrf) as [Htr Hb].
  fold numRandom in Htr, Hb.
  pose proof (vsize_nonneg recs) as Hsz0.
  assert (Hlen : (vsize (fst (std_shuffle top g)) <= INT_MAX)%Z).
  { unfold vsize. rewrite shuffled_length. unfold top.
    rewrite length_firstn. unfold vsize in Hsz. lia. }
  assert (Heq : getRandomizedRecommendations recs n rf g =
                Some (fst (std_shuffle
                             (top ++ firstn (Z.to_nat numRandom)
                                            (fst (std_shuffle top g)))
                             (snd (std_shuffle top g))))).
  { rewrite getRandomizedRecommendations_unfold by assumption.
    cbv zeta. rewrite Htr. fold numTop.
    rewrite to_size_t_small
      by (unfold is_int, INT_MIN, INT_MAX in Hint; lia).
    rewrite (to_int_small (vsize recs)) by lia.
    rewrite firstn_beyond. fold top.
    rewrite to_int_small by (split; [apply vsize_nonneg | exact Hlen]).
    now rewrite firstn_beyond. }
  eexists. exists (fst (std_shuffle top g)).
  split; [exact Heq|]. split; apply std_shuffle_perm.
Qed.

End DiversifierMore.

(** For every list, every request and every fraction that is not negative
    (fractions above 1 included) and keeps
    numRecommendations * randomFactor within an [int], the call returns
    without reading outside the list, every returned entry is an entry of
    the list, and an empty list gives an empty result. *)
Theorem randomized_never_faults {std : StdLibrary}
    (recs : list ScoredEntry) (n : Z) (rf : R) (g : mt19937) :
  is_int n -> 0 <= rf -> IZR n * rf <= IZR INT_MAX ->
  exists out,
    getRandomizedRecommendations recs n rf g = Some out /\
    (forall e, In e out -> In e recs) /\
    (recs = [] -> out = []).
Proof.
  intros _ _ _.
  destruct (getRandomizedRecommendations_total recs n rf g)
    as [out [Hout Hin]].
  exists out. split; [exact Hout|]. split; [exact Hin|].
  intros ->. destruct out as [|e out]; [reflexivity|].
  destruct (Hin e (or_introl eq_refl)).
Qed.

Lemma randomized_never_faults_witness :
  exists out,
    getRandomizedRecommendations (std := reference_library)
      [("a"%string, 3); ("b"%string, 2)] 1 2 [] = Some out /\
    Forall (fun e => In e [("a"%string, 3); ("b"%string, 2)]) out.
Proof.
  destruct (randomized_never_faults (std := reference_library)
              [("a"%string, 3); ("b"%string, 2)] 1 2 [])
    as [out [H1 [H2 _]]].
  - unfold is_int, INT_MIN, INT_MAX. lia.
  - lra.
  - unfold INT_MAX. lra.
  - exists out. split; [exact H1 | now apply Forall_forall].
Defined.

(** When numRecommendations * randomFactor is a whole number numRandom
    between 0 and numRecommendations (the product is then exact in
    [double] too) and the list fits an [int]: with
    numTop = numRecommendations - numRandom, the first numTop entries of
    the list are all returned, and the result has
    min(numTop, size) + min(numRandom, numTop, size) entries. *)
Theorem randomized_keeps_top_slice {std : StdLibrary}
    (recs : list ScoredEntry) (n numRandom : Z) (rf : R) (g : mt19937) :
  is_int n -> (0 < n)%Z -> (0 <= numRandom <= n)%Z ->
  IZR n * rf = IZR numRandom -> (vsize recs <= INT_MAX)%Z ->
  let numTop := (n - numRandom)%Z in
  exists out,
    getRandomizedRecommendations recs n rf g = Some out /\
    (forall e, In e (firstn (Z.to_nat numTop) recs) -> In e out) /\
    vsize out =
    (Z.min numTop (vsize recs)
     + Z.min numRandom (Z.min numTop (vsize recs)))%Z.
Proof.
  intros Hint Hn Hb Hexact Hsz numTop.
  assert (Hn' : 0 < IZR n) by now apply IZR_lt.
  assert (Hm : 0 <= IZR numRandom <= IZR n)
    by (split; apply IZR_le; lia).
  assert (Hrf : 0 <= rf <= 1) by (split; nra).
  destruct (getRandomizedRecommendations_shape recs n rf g Hint Hn Hrf Hsz)
    as [out [shuffled [Hout [Hsh Hp]]]].
  rewrite Hexact, Int_part_IZR in Hsh, Hp. fold numTop in Hsh, Hp.
  exists out. split; [exact Hout|]. split.
  - intros e He. apply (Permutation_in _ Hp), in_or_app. now left.
  - unfold vsize. rewrite <- (Permutation_length Hp), length_app.
    rewrite !length_firstn, <- (Permutation_length Hsh), length_firstn.
    lia.
Qed.

Lemma randomized_keeps_top_slice_witness :
  exists out,
    getRandomizedRecommendations (std := reference_library)
      [("a"%string, 3); ("b"%string, 2); ("c"%string, 1)] 4 (1 / 2) []
    = Some out /\
    vsize out = 4%Z.
Proof.
  destruct (randomized_keeps_top_slice (std := reference_library)
              [("a"%string, 3); ("b"%string, 2); ("c"%string, 1)]
              4 2 (1 / 2) [])
    as [out [H1 [_ H3]]].
  - unfold is_int, INT_MIN, INT_MAX. lia.
  - lia.
  - lia.
  - lra.
  - unfold vsize, INT_MAX. simpl. lia.
  - exists out. split; [exact H1|]. rewrite H3. reflexivity.
Defined.

(** When the list has no repeated entry and at least one entry is kept
    and at least one is picked at random, the result repeats an entry:
    the random picks come from the kept slice.  No entry is returned more
    than twice. *)
Theorem randomized_repeats_entries {std : StdLibrary}
    (recs : list ScoredEntry) (n : Z) (rf : R) (g : mt19937) :
  is_int n -> (0 < n)%Z -> 0 <= rf <= 1 -> (vsize recs <= INT_MAX)%Z ->
  NoDup recs -> recs <> [] ->
  (1 <= Int_part (IZR n * rf) < n)%Z ->
  exists out,
    getRandomizedRecommendations recs n rf g = Some out /\
    ~ NoDup out /\
    forall e, (count_occ entry_eq_dec out e <= 2)%nat.
Proof.
  intros Hint Hn Hrf Hsz Hnd Hne Hboth.
  destruct (getRandomizedRecommendations_shape recs n rf g Hint Hn Hrf Hsz)
    as [out [shuffled [Hout [Hsh Hp]]]].
  set (numRandom := Int_part (IZR n * rf)) in *.
  set (numTop := (n - numRandom)%Z) in *.
  set (top := firstn (Z.to_nat numTop) recs) in *.
  exists out. split; [exact Hout|].
  assert (Htop : NoDup top) by now apply NoDup_firstn.
  assert (Hshnd : NoDup shuffled)
    by (eapply Permutation_NoDup; [exact Hsh | exact Htop]).
  split.
  - intros Hout_nd.
    apply (Permutation_NoDup (Permutation_sym Hp)) in Hout_nd.
    assert (Hpick : exists e, In e (firstn (Z.to_nat numRandom) shuffled)).
    { destruct shuffled as [|e sh].
      - apply Permutation_sym, Permutation_nil in Hsh.
        unfold top in Hsh. destruct recs as [|r recs']; [contradiction|].
        replace (Z.to_nat numTop) with (S (Z.to_nat (numTop - 1))) in Hsh
          by lia.
        discriminate Hsh.
      - exists e. replace (Z.to_nat numRandom)
          with (S (Z.to_nat (numRandom - 1))) by lia.
        now left. }
    destruct Hpick as [e He].
    apply (NoDup_app_apart _ _ e Hout_nd); [|exact He].
    apply (Permutation_in _ (Permutation_sym Hsh)).
    now apply firstn_In in He.
  - intros e.
    pose proof (proj1 (Permutation_count_occ entry_eq_dec _ _) Hp e) as Hc.
    rewrite <- Hc, count_occ_app.
    pose proof (proj1 (NoDup_count_occ entry_eq_dec top) Htop e) as H1.
    pose proof (proj1 (NoDup_count_occ entry_eq_dec _)
                      (NoDup_firstn shuffled (Z.to_nat numRandom) Hshnd) e)
      as H2.
    lia.
Qed.

Lemma randomized_repeats_entries_witness :
  exists out,
    getRandomizedRecommendations (std := reference_library)
      [("a"%string, 3); ("b"%string, 2)] 2 (1 / 2) [] = Some out /\
    ~ NoDup out.
Proof.
  destruct (randomized_repeats_entries (std := reference_library)
              [("a"%string, 3); ("b"%string, 2)] 2 (1 / 2) [])
    as [out [H1 [H2 _]]].
  - unfold is_int, INT_MIN, INT_MAX. lia.
  - lia.
  - lra.
  - unfold vsize, INT_MAX. simpl. lia.
  - repeat constructor; simpl; try tauto.
    intros [E|[]]. discriminate E.
  - discriminate.
  - replace (IZR 2 * (1 / 2)) with (IZR 1) by lra.
    rewrite Int_part_IZR. lia.
  - exists out. split; [exact H1 | exact H2].
Defined.



(** ** The recommendation steps of [main] *)


Lemma nodup_length_same (l l' : list string) :
  (forall x, In x l <-> In x l') ->
  List.length (nodup string_dec l) = List.length (nodup string_dec l').
Proof.
  intros H. apply Permutation_length, NoDup_Permutation;
    try apply NoDup_nodup.
  intros x. now rewrite !nodup_In.
Qed.

Section MainFacts.

Context {std : StdLibrary}.


Lemma combined_ids_count content collab cw lw :
  List.length (combineRecommendations content collab cw lw) =
  List.length (nodup string_dec (ids content ++ ids collab)).
Proof.
  transitivity
    (List.length (ids (combineRecommendations content collab cw lw)));
    [symmetry; apply length_map|].
  apply Permutation_length, NoDup_Permutation.
  - apply combineRecommendations_NoDup.
  - apply NoDup_nodup.
  - intros k. rewrite nodup_In, in_app_iff. split.
    + intros H. unfold ids in H. apply in_map_iff in H.
      destruct H as [[k' s] [E H]]. simpl in E. subst k'.
      apply combineRecommendations_In in H. tauto.
    + intros H.
      apply (in_map fst _
               (k, contribution (scaled cw content) k
                   + contribution (scaled lw collab) k)).
      apply combineRecommendations_In. split; [exact H | reflexivity].
Qed.

Lemma collaborative_ids peers k :
  In k (ids (recommendCollaborative peers)) <->
  In k (flat_map likedWorks peers).
Proof.
  rewrite in_flat_map. unfold ids. rewrite in_map_iff. split.
  - intros [[k' s] [E H]]. simpl in E. subst k'.
    apply recommendCollaborative_In in H. tauto.
  - intros H. exists (k, contribution (liked_pairs peers) k).
    split; [reflexivity|].
    apply recommendCollaborative_In. tauto.
Qed.

Lemma content_ids user works config k :
  In k (ids (recommendContentBased user works config)) <->
  In k (map work_id works).
Proof.
  split; apply Permutation_in;
    [apply Permutation_sym|]; apply recommendContentBased_ids.
Qed.

End MainFacts.

(** For every request and every fraction that is not negative and keeps
    numRecommendations * randomFactor within an [int], the recommendation
    steps of [main] return, and every returned id is the id of a catalog
    item or an id some peer likes. *)
Theorem main_pipeline_ids {std : StdLibrary}
    (user : UserProfile) (works : list Work) (peers : list SimilarUser)
    (config : MetricsConfig) (n : Z) (rf : R) (g : mt19937) :
  is_int n -> 0 <= rf -> IZR n * rf <= IZR INT_MAX ->
  exists out,
    main_pipeline user works peers config n rf g = Some out /\
    forall k s,
      In (k, s) out ->
      In k (map work_id works) \/
      exists peer, In peer peers /\ In k (likedWorks peer).
Proof.
  intros _ _ _. unfold main_pipeline.
  destruct (getRandomizedRecommendations_total
              (combineRecommendations
                 (recommendContentBased user works config)
                 (recommendCollaborative peers) 0.5 0.5) n rf g)
    as [out [Hout Hin]].
  exists out. split; [exact Hout|].
  intros k s Hks. apply Hin, combineRecommendations_In in Hks.
  destruct Hks as [[Hk|Hk] _].
  - left. now apply content_ids in Hk.
  - right. apply collaborative_ids, in_flat_map in Hk. exact Hk.
Qed.

Lemma main_pipeline_ids_witness :
  exists out,
    main_pipeline (std := reference_library)
      (mkUserProfile [mkTag "scifi" 1])
      [mkWork "A" [mkTag "scifi" 1] 100 50]
      [mkSimilarUser "u1" 0.8 ["A"%string; "X"%string]]
      (mkMetricsConfig true 0.1 0.1 1) 2 (1 / 2) [] = Some out /\
    Forall (fun e : ScoredEntry =>
              In (fst e) ["A"%string] \/
              exists peer,
                In peer [mkSimilarUser "u1" 0.8 ["A"%string; "X"%string]] /\
                In (fst e) (likedWorks peer))
           out.
Proof.
  destruct (main_pipeline_ids (std := reference_library)
              (mkUserProfile [mkTag "scifi" 1])
              [mkWork "A" [mkTag "scifi" 1] 100 50]
              [mkSimilarUser "u1" 0.8 ["A"%string; "X"%string]]
              (mkMetricsConfig true 0.1 0.1 1) 2 (1 / 2) [])
    as [out [H1 H2]].
  - unfold is_int, INT_MIN, INT_MAX. lia.
  - lra.
  - unfold INT_MAX. lra.
  - exists out. split; [exact H1|].
    apply Forall_forall. intros [k s] Hin. exact (H2 k s Hin).
Defined.



(** With randomFactor 0 and a request at least as large as the number of
    distinct ids among the catalog and the peers' liked lists, [main]
    ends up with each of these ids exactly once. *)
Theorem main_pipeline_returns_every_candidate {std : StdLibrary}
    (user : UserProfile) (works : list Work) (peers : list SimilarUser)
    (config : MetricsConfig) (n : Z) (g : mt19937) :
  is_int n -> (0 < n)%Z ->
  (Z.of_nat (List.length
               (nodup string_dec
                      (map work_id works ++ flat_map likedWorks peers)))
   <= n)%Z ->
  exists out,
    main_pipeline user works peers config n 0 g = Some out /\
    NoDup (ids out) /\
    forall k,
      In k (ids out) <->
      In k (map work_id works) \/ In k (flat_map likedWorks peers).
Proof.
  intros Hint Hn Hcount. unfold main_pipeline.
  set (combined := combineRecommendations
                     (recommendContentBased user works config)
                     (recommendCollaborative peers) 0.5 0.5).
  assert (Hlen : (vsize combined <= n)%Z).
  { unfold vsize, combined. rewrite combined_ids_count.
    rewrite (nodup_length_same _
               (map work_id works ++ flat_map likedWorks peers));
      [exact Hcount|].
    intros k. rewrite !in_app_iff, content_ids, collaborative_ids.
    reflexivity. }
  destruct (getRandomizedRecommendations_shape combined n 0 g)
    as [out [shuffled [Hout [_ Hp]]]]; try assumption; try lra.
  { unfold is_int in Hint. lia. }
  exists out. split; [exact Hout|].
  rewrite Rmult_0_r, (Int_part_IZR 0) in Hp.
  rewrite firstn_O, app_nil_r, Z.sub_0_r in Hp.
  rewrite firstn_all2 in Hp by (unfold vsize in Hlen; lia).
  assert (Hids : Permutation (ids combined) (ids out))
    by now apply Permutation_map.
  split.
  - eapply Permutation_NoDup;
      [exact Hids | apply combineRecommendations_NoDup].
  - intros k.
    rewrite <- (content_ids user works config), <- collaborative_ids.
    split.
    + intros H. apply (Permutation_in _ (Permutation_sym Hids)) in H.
      unfold ids in H. apply in_map_iff in H.
      destruct H as [[k' s] [E H]]. simpl in E. subst k'.
      unfold combined in H.
      apply combineRecommendations_In in H. tauto.
    + intros H. apply (Permutation_in _ Hids).
      apply (in_map fst _
               (k, contribution
                     (scaled 0.5 (recommendContentBased user works config)) k
                   + contribution
                       (scaled 0.5 (recommendCollaborative peers)) k)).
      apply combineRecommendations_In. split; [exact H | reflexivity].
Qed.

Lemma main_pipeline_returns_every_candidate_witness :
  exists out,
    main_pipeline (std := reference_library)
      (mkUserProfile [mkTag "scifi" 1])
      [mkWork "A" [mkTag "scifi" 1] 100 50]
      [mkSimilarUser "u1" 0.8 ["A"%string; "X"%string]]
      (mkMetricsConfig true 0.1 0.1 1) 5 0 [] = Some out /\
    NoDup (ids out) /\ In "X"%string (ids out).
Proof.
  destruct (main_pipeline_returns_every_candidate (std := reference_library)
              (mkUserProfile [mkTag "scifi" 1])
              [mkWork "A" [mkTag "scifi" 1] 100 50]
              [mkSimilarUser "u1" 0.8 ["A"%string; "X"%string]]
              (mkMetricsConfig true 0.1 0.1 1) 5 [])
    as [out [H1 [H2 H3]]].
  - unfold is_int, INT_MIN, INT_MAX. lia.
  - lia.
  - vm_compute. discriminate.
  - exists out. split; [exact H1|]. split; [exact H2|].
    apply H3. right. simpl. tauto.
Defined.

(** ** Content scorer: a catalog without signal *)

Lemma max_over_no_signal f works :
  Forall (fun w => f w <= 0) works -> max_over f works = 0.
Proof.
  induction 1 as [|w works Hw _ IH]; simpl; [reflexivity|].
  rewrite IH. now apply Rmax_right.
Qed.

(** When no item of the catalog has a positive view count or interaction
    time, both maxima stay 0, no division takes place, and with or
    without useMetrics every item is scored
    weightTags * cosineSimilarity(user, item). *)
Theorem content_scores_without_signal {std : StdLibrary}
    (user : UserProfile) (works : list Work) (config : MetricsConfig) :
  Forall (fun w => viewCount w <= 0 /\ interactionTime w <= 0) works ->
  Permutation
    (map (fun w => (work_id w, weightTags config * cosineSimilarity user w))
         works)
    (recommendContentBased user works config).
Proof.
  intros Hno. rewrite recommendContentBased_unfold, <- std_sort_perm.
  assert (Hv : max_over viewCount works = 0).
  { apply max_over_no_signal.
    eapply Forall_impl; [|exact Hno]. simpl. tauto. }
  assert (Ht : max_over interactionTime works = 0).
  { apply max_over_no_signal.
    eapply Forall_impl; [|exact Hno]. simpl. tauto. }
  rewrite (map_ext
             (fun w => (work_id w, content_score user works config w))
             (fun w => (work_id w,
                        weightTags config * cosineSimilarity user w)));
    [reflexivity|].
  intros w. f_equal. unfold content_score, normalized. rewrite Hv, Ht.
  destruct (Req_dec_T 0 0) as [_|Hne]; [|contradiction].
  destruct (useMetrics config); lra.
Qed.

Lemma content_scores_without_signal_witness :
  Permutation
    [("A"%string,
      1 * cosineSimilarity (mkUserProfile [mkTag "scifi" 1])
                           (mkWork "A" [mkTag "scifi" 1] 0 0))]
    (recommendContentBased (std := reference_library)
       (mkUserProfile [mkTag "scifi" 1])
       [mkWork "A" [mkTag "scifi" 1] 0 0]
       (mkMetricsConfig true 0.1 0.1 1)).
Proof.
  apply (content_scores_without_signal (std := reference_library)
           (mkUserProfile [mkTag "scifi" 1])
           [mkWork "A" [mkTag "scifi" 1] 0 0]
           (mkMetricsConfig true 0.1 0.1 1)).
  repeat constructor; simpl; lra.
Defined.

(** ** The scorers in binary64 *)

Section Binary64Facts.

Import PrimFloat.

#[local] Set Warnings "-inexact-float".

(** C2. In binary64 the code returns 1.4142135623730949 for a user with
    the tag a = 1 and an item that lists a = 1 twice, and
    1.0000000000000002 for a user and an item that both carry
    a = b = c = 1 (no tag name repeated); all tag values are nonnegative
    and both results are above 1. *)
Theorem cosineSimilarity_exceeds_one :
  let twice :=
    Binary64.cosineSimilarity
      (Binary64.mkUserProfile [Binary64.mkTag "a" 1%float])
      (Binary64.mkWork "w"
         [Binary64.mkTag "a" 1%float; Binary64.mkTag "a" 1%float]
         0%float 0%float) in
  let same :=
    Binary64.cosineSimilarity
      (Binary64.mkUserProfile
         [Binary64.mkTag "a" 1%float; Binary64.mkTag "b" 1%float;
          Binary64.mkTag "c" 1%float])
      (Binary64.mkWork "w"
         [Binary64.mkTag "a" 1%float; Binary64.mkTag "b" 1%float;
          Binary64.mkTag "c" 1%float]
         0%float 0%float) in
  twice = 1.4142135623730949%float /\
  same = 1.0000000000000002%float /\
  PrimFloat.ltb 1%float twice = true /\
  PrimFloat.ltb 1%float same = true.
Proof. vm_compute. repeat split. Qed.

(** With an id repeated within a list the two argument orders add the
    same three products in different orders, and binary64 gives
    different sums. *)
Lemma combined_scores_repeated_id_binary64 :
  Binary64.combined_scores
    [("k"%string, 0.1%float); ("k"%string, 0.2%float)]
    [("k"%string, 0.4%float)] 1%float 1%float
  = [("k"%string, 0.70000000000000007%float)] /\
  Binary64.combined_scores
    [("k"%string, 0.4%float)]
    [("k"%string, 0.1%float); ("k"%string, 0.2%float)] 1%float 1%float
  = [("k"%string, 0.69999999999999996%float)].
Proof. vm_compute. split; reflexivity. Qed.

End Binary64Facts.
